(** * COASAGENT orchestration core: feed store, resilient client, instance manager

    A shallow embedding of the three stateful classes of the repository

      - [RSSGenerator] / [RSSFeedManager]  (the feed store),
      - [AIClient]                          (the model-rotating client),
      - [InstanceManager]                   (the agent scheduler),

    together with the properties their documentation states.

    Conventions.  A JavaScript [Date] read from the clock is its [getTime()]
    value, an integer number of milliseconds ([Z]); a [Date] built from a
    computed number is an [option Z], [None] being the Invalid Date.  The
    wall clock ([new Date()], [Date.now()]) is an argument of the operation
    that reads it; the operations of the instance manager run their
    statements without suspension and are given one instant for all their
    reads.  A [Map] whose iteration order is observable is an association
    list in insertion order; a [Map] or [Record] used only through lookups
    is a [gmap].  Calls that leave the repository (the generation backends,
    the collector pipeline, the processor, the timers of the host) are
    oracles: their outcome is an argument, and each of them returns or
    throws; a thrown value is told apart as far as the handler that catches
    it looks at it. *)

From stdpp Require Import base list sorting strings pretty gmap.


(** ** Shared data  (src/lib/types.ts) *)

Record Location := {
  googleMapsPin : string;
  radiusKm : Z
}.

Record Role := {
  primaryRole : string;
  focusTopic : string;
  targetAudience : string;
  searchPurpose : string;
  dataPresentation : string
}.

Record PersonalitySliders := {
  socialMood : Z;
  politicalBearing : Z;
  techSavviness : Z;
  presentationStyle : Z;
  contentDensity : Z
}.

Record DataSources := {
  llm : bool;
  internet : bool;
  reddit : bool;
  facebook : bool;
  twitter : bool;
  youtube : bool;
  instagram : bool
}.

Record Modifiers := {
  hardFacts : bool;
  meaningFocus : bool;
  suggestiveMode : bool;
  strictGuidance : bool;
  laymanFriendly : bool;
  adultLanguage : bool;
  includeToolbox : bool;
  includeTips : bool
}.

Record AgentConfig := {
  location : Location;
  role : Role;
  personalitySliders : PersonalitySliders;
  contextOverride : string;
  outputFormat : string;
  dataSources : DataSources;
  modifiers : Modifiers
}.

(** [ProcessedContent]: the scheduler reads only [source]; the relevance
    scores and the metadata of the interface are fractional numbers filled
    in by the collectors and are not part of this development. *)
Record ProcessedContent := {
  pc_id : string;
  source : string;
  timestamp : Z;
  rawContent : string;
  processedContent : string
}.

(** A configuration used by the worked examples. *)
Definition sampleConfig : AgentConfig :=
  {| location := {| googleMapsPin := "52.37,4.89"; radiusKm := 25 |};
     role := {| primaryRole := "analyst"; focusTopic := "accounting";
                targetAudience := "family businesses";
                searchPurpose := "trends"; dataPresentation := "summary" |};
     personalitySliders := {| socialMood := 50; politicalBearing := 50;
                              techSavviness := 70; presentationStyle := 40;
                              contentDensity := 60 |};
     contextOverride := "";
     outputFormat := "normal";
     dataSources := {| llm := true; internet := true; reddit := true;
                       facebook := false; twitter := true; youtube := false;
                       instagram := false |};
     modifiers := {| hardFacts := true; meaningFocus := false;
                     suggestiveMode := false; strictGuidance := false;
                     laymanFriendly := true; adultLanguage := false;
                     includeToolbox := false; includeTips := true |} |}.

(** ** JavaScript array and string helpers *)

(** [arr.slice(0, n)] for an integer [n]: a negative [n] counts from the end. *)
Definition slice0 {A} (n : Z) (l : list A) : list A :=
  if (n <? 0)%Z
  then take (Z.to_nat (Z.max (Z.of_nat (length l) + n) 0)) l
  else take (Z.to_nat n) l.

(** [arr.join(sep)] on an array of strings. *)
Fixpoint join (sep : string) (l : list string) : string :=
  match l with
  | [] => ""
  | [x] => x
  | x :: rest => x +:+ sep +:+ join sep rest
  end.

Lemma slice0_nonneg {A} (n : Z) (l : list A) :
  (0 ≤ n)%Z → slice0 n l = take (Z.to_nat n) l.
Proof.
  intros Hn. unfold slice0.
  destruct (n <? 0)%Z eqn:E; [apply Z.ltb_lt in E; lia | done].
Qed.

Lemma length_slice0_le {A} (n : Z) (l : list A) :
  (0 ≤ n)%Z → (Z.of_nat (length (slice0 n l)) ≤ n)%Z.
Proof. intros Hn. rewrite slice0_nonneg, length_take by done. lia. Qed.

Lemma length_slice0_total {A} (n : Z) (l : list A) :
  length (slice0 n l) ≤ length l.
Proof. unfold slice0. destruct (n <? 0)%Z; rewrite length_take; lia. Qed.

(** [arr.sort(cmp)].  ECMAScript requires the sort to be stable; for a
    consistent comparator the result is then unique, and insertion from the
    right computes it: an element goes in front of the first element it does
    not have to follow. *)
Fixpoint sort_insert {A} (cmp : A → A → Z) (x : A) (l : list A) : list A :=
  match l with
  | [] => [x]
  | y :: ys => if (cmp x y <=? 0)%Z then x :: y :: ys else y :: sort_insert cmp x ys
  end.

Fixpoint sort {A} (cmp : A → A → Z) (l : list A) : list A :=
  match l with
  | [] => []
  | x :: xs => sort_insert cmp x (sort cmp xs)
  end.

Section Sort.
Context {A : Type} (cmp : A → A → Z).

Lemma sort_insert_perm x l : sort_insert cmp x l ≡ₚ x :: l.
Proof.
  induction l as [|y ys IH]; simpl; [done|].
  destruct (cmp x y <=? 0)%Z; [done|].
  rewrite IH. apply Permutation_swap.
Qed.

Lemma sort_perm l : sort cmp l ≡ₚ l.
Proof.
  induction l as [|x xs IH]; simpl; [done|].
  by rewrite sort_insert_perm, IH.
Qed.

(** The comparator orders by a key, larger key first. *)
Context (key : A → Z).
Hypothesis cmp_key : ∀ a b, cmp a b = (key b - key a)%Z.

Lemma sort_insert_sorted x l :
  StronglySorted (λ a b, (key b ≤ key a)%Z) l →
  StronglySorted (λ a b, (key b ≤ key a)%Z) (sort_insert cmp x l).
Proof.
  induction 1 as [|y ys Hys IH Hall]; simpl.
  - repeat constructor.
  - destruct (cmp x y <=? 0)%Z eqn:E.
    + apply Z.leb_le in E. rewrite cmp_key in E.
      constructor; [by constructor|].
      constructor; [lia|].
      eapply Forall_impl; [exact Hall|]. simpl. intros; lia.
    + apply Z.leb_gt in E. rewrite cmp_key in E.
      constructor; [done|].
      rewrite sort_insert_perm. constructor; [lia | done].
Qed.

Lemma sort_sorted l : StronglySorted (λ a b, (key b ≤ key a)%Z) (sort cmp l).
Proof.
  induction l as [|x xs IH]; simpl; [constructor|].
  by apply sort_insert_sorted.
Qed.

(** Stability: elements with one key keep their relative order. *)
Lemma sort_insert_stable t x l :
  filter (λ a, key a = t) (sort_insert cmp x l) = filter (λ a, key a = t) (x :: l).
Proof.
  induction l as [|y ys IH]; simpl; [done|].
  destruct (cmp x y <=? 0)%Z eqn:E; [done|].
  apply Z.leb_gt in E. rewrite cmp_key in E.
  rewrite (filter_cons _ y), IH, !(filter_cons _ x), (filter_cons _ y).
  destruct (decide (key y = t)), (decide (key x = t)); try done. lia.
Qed.

Lemma sort_stable t l :
  filter (λ a, key a = t) (sort cmp l) = filter (λ a, key a = t) l.
Proof.
  induction l as [|x xs IH]; simpl; [done|].
  by rewrite sort_insert_stable, !filter_cons, IH.
Qed.

End Sort.

(** ** JavaScript dates *)

(** [new Date(t)] for an integer [t]: further than 8.64e15 ms from the epoch
    there is no time value, and the result is an Invalid Date.  The numbers
    handed to it here are [Date.now() - maxAgeHours * 60 * 60 * 1000] for an
    integer [maxAgeHours]: the floating-point result is the exact one
    whenever that lies within the range (both operands are then integers
    that a double holds exactly), and lies outside the range whenever the
    exact one does. *)
Definition newDate (t : Z) : option Z :=
  if decide (-8640000000000000 ≤ t ≤ 8640000000000000)%Z then Some t else None.

(** [d > c] and [d < c] for the Date of a clock read [d] and a Date [c]: the
    operands are compared as numbers, an Invalid Date is [NaN], and every
    comparison with [NaN] is false. *)
Definition laterThan (c : option Z) (d : Z) : Prop :=
  match c with
  | Some c => (c < d)%Z
  | None => False
  end.

Definition earlierThan (c : option Z) (d : Z) : Prop :=
  match c with
  | Some c => (d < c)%Z
  | None => False
  end.

#[global] Instance laterThan_dec c d : Decision (laterThan c d).
Proof. destruct c; cbn; apply _. Defined.

#[global] Instance earlierThan_dec c d : Decision (earlierThan c d).
Proof. destruct c; cbn; apply _. Defined.

Lemma newDate_valid t :
  (-8640000000000000 ≤ t ≤ 8640000000000000)%Z → newDate t = Some t.
Proof. intros H. unfold newDate. by rewrite decide_True. Qed.

Lemma newDate_invalid t :
  ¬ (-8640000000000000 ≤ t ≤ 8640000000000000)%Z → newDate t = None.
Proof. intros H. unfold newDate. by rewrite decide_False. Qed.

(** ** The feed store  (RSSGenerator, RSSFeedManager) *)

Module RSS.

Record RSSItem := {
  item_id : string;
  title : string;
  content : string;
  pubDate : Z;
  category : string;
  sourceAttribution : string;
  link : string
}.

(** What [table[format] || text] finds for the title and the description of
    a channel: a text, or a member of [Object.prototype]. *)
Inductive ChannelText :=
  | Text (text : string)
  | Inherited (member : string).

Record Channel := {
  channel_title : ChannelText;
  channel_description : ChannelText;
  channel_category : string;
  lastUpdated : Z;
  generator : string;
  channel_link : string
}.

Record RSSFeed := {
  channel : Channel;
  items : list RSSItem
}.

(** [private feeds: Map<string, RSSFeed>], in insertion order. *)
Definition Feeds := list (string * RSSFeed).

(** [private maxItemsPerFeed = 50]; never reassigned. *)
Definition maxItemsPerFeed : Z := 50.

Definition baseUrl : string := "https://coasagent.example.com".

(** The own properties of the two object literals of [createFeedForFormat]. *)
Definition formatTitles (format : string) : option string :=
  if decide (format = "normal") then Some "COASAGENT - Normal Output"
  else if decide (format = "question") then Some "COASAGENT - Question Mode"
  else if decide (format = "emoji") then Some "COASAGENT - Emoji Mode"
  else if decide (format = "quote") then Some "COASAGENT - Quote Mode"
  else if decide (format = "info") then Some "COASAGENT - Info Insights"
  else if decide (format = "proverb") then Some "COASAGENT - Proverb Mode"
  else if decide (format = "csv") then Some "COASAGENT - CSV Data"
  else if decide (format = "json") then Some "COASAGENT - JSON Data"
  else None.

Definition formatDescriptions (format : string) : option string :=
  if decide (format = "normal")
  then Some "AI-generated insights and analysis in plain text format"
  else if decide (format = "question")
  then Some "Six insightful questions with comprehensive summaries"
  else if decide (format = "emoji")
  then Some "Best emojis representing current trends and insights"
  else if decide (format = "quote")
  then Some "Insightful quotes based on current events and trends"
  else if decide (format = "info")
  then Some "Six informative insights into current topics"
  else if decide (format = "proverb")
  then Some "Wisdom and proverbs based on current events"
  else if decide (format = "csv")
  then Some "Structured data in CSV format for analysis"
  else if decide (format = "json")
  then Some "Structured data in JSON format for integration"
  else None.

(** The members that every object literal inherits from [Object.prototype]. *)
Definition objectPrototype : list string :=
  ["constructor"; "hasOwnProperty"; "isPrototypeOf"; "propertyIsEnumerable";
   "toLocaleString"; "toString"; "valueOf"; "__proto__";
   "__defineGetter__"; "__defineSetter__"; "__lookupGetter__"; "__lookupSetter__"].

(** [table[format] || text], where [table] gives the own properties of an
    object literal: an own property is a text, and none of the texts above
    is empty; a format that names an inherited member finds that member,
    which is truthy; any other format finds [undefined] and gets [text]. *)
Definition lookupOr (table : string → option string) (text format : string) : ChannelText :=
  match table format with
  | Some own => Text own
  | None => if decide (format ∈ objectPrototype) then Inherited format else Text text
  end.

(** [Map.get]: the binding of a key. *)
Fixpoint get (k : string) (m : Feeds) : option RSSFeed :=
  match m with
  | [] => None
  | (k', v) :: rest => if decide (k = k') then Some v else get k rest
  end.

(** Writing through the reference that [Map.get] returned: the binding of
    [k] is replaced where it stands. *)
Fixpoint put (k : string) (v : RSSFeed) (m : Feeds) : Feeds :=
  match m with
  | [] => []
  | (k', v') :: rest =>
      if decide (k = k') then (k', v) :: rest else (k', v') :: put k v rest
  end.

Definition items_of (k : string) (m : Feeds) : list RSSItem :=
  match get k m with
  | Some feed => items feed
  | None => []
  end.

Section WithLocale.

(** [Date.prototype.toLocaleDateString] and [toLocaleTimeString] depend on
    the host's locale. *)
Variable toLocaleDateString : Z → string.
Variable toLocaleTimeString : Z → string.

Definition generateItemTitle (format : string) (config : AgentConfig)
    (timestamp : Z) : string :=
  let dateStr := toLocaleDateString timestamp in
  let timeStr := toLocaleTimeString timestamp in
  let baseTopic :=
    if decide (focusTopic (role config) = "") then "General Topics"
    else focusTopic (role config) in
  if decide (format = "question")
  then "6 Questions About " +:+ baseTopic +:+ " - " +:+ dateStr
  else if decide (format = "emoji")
  then "Top Emojis for " +:+ baseTopic +:+ " - " +:+ dateStr
  else if decide (format = "quote")
  then "Daily Quote: " +:+ baseTopic +:+ " - " +:+ dateStr
  else if decide (format = "info")
  then "6 Insights: " +:+ baseTopic +:+ " - " +:+ dateStr
  else if decide (format = "proverb")
  then "Daily Proverb: " +:+ baseTopic +:+ " - " +:+ dateStr
  else if decide (format = "csv")
  then baseTopic +:+ " Data (CSV) - " +:+ dateStr
  else if decide (format = "json")
  then baseTopic +:+ " Data (JSON) - " +:+ dateStr
  else baseTopic +:+ " Analysis - " +:+ dateStr +:+ " " +:+ timeStr.

(** The item that [createFeedForFormat] builds; [timestamp] is its
    [new Date()]. *)
Definition newItem (format content : string) (config : AgentConfig)
    (attribution : string) (timestamp : Z) : RSSItem :=
  {| item_id := "coasagent-" +:+ format +:+ "-" +:+ pretty timestamp;
     title := generateItemTitle format config timestamp;
     content := content;
     pubDate := timestamp;
     category := format;
     sourceAttribution := attribution;
     link := baseUrl +:+ "/rss/" +:+ format |}.

Definition createFeedForFormat (format content : string) (config : AgentConfig)
    (attribution : string) (timestamp : Z) : RSSFeed :=
  {| channel :=
       {| channel_title := lookupOr formatTitles "COASAGENT - Unknown Format" format;
          channel_description := lookupOr formatDescriptions "AI-generated content" format;
          channel_category := format;
          lastUpdated := timestamp;
          generator := "COASAGENT v1.0";
          channel_link := baseUrl +:+ "/rss/" +:+ format |};
     items := [newItem format content config attribution timestamp] |}.

(** [addItem]: [now] is the clock read by [createFeedForFormat], [now'] the
    one stored in [lastUpdated] of an existing feed. *)
Definition addItem (format content : string) (config : AgentConfig)
    (attribution : string) (now now' : Z) (feeds : Feeds) : Feeds :=
  let newFeed := createFeedForFormat format content config attribution now in
  match get format feeds with
  | Some existingFeed =>
      (* [newFeed.items] holds the new item and nothing else *)
      let unshifted := items newFeed ++ items existingFeed in
      let ch := channel existingFeed in
      let ch' :=
        {| channel_title := channel_title ch;
           channel_description := channel_description ch;
           channel_category := channel_category ch;
           lastUpdated := now';
           generator := generator ch;
           channel_link := channel_link ch |} in
      let limited :=
        if (maxItemsPerFeed <? Z.of_nat (length unshifted))%Z
        then slice0 maxItemsPerFeed unshifted
        else unshifted in
      put format {| channel := ch'; items := limited |} feeds
  | None => feeds ++ [(format, newFeed)]
  end.

(** One call of [addItem] with the two clock values it reads. *)
Record Append := {
  ap_format : string;
  ap_content : string;
  ap_config : AgentConfig;
  ap_attribution : string;
  ap_now : Z;
  ap_now' : Z
}.

Definition append (a : Append) (feeds : Feeds) : Feeds :=
  addItem (ap_format a) (ap_content a) (ap_config a) (ap_attribution a)
          (ap_now a) (ap_now' a) feeds.

Definition item_of (a : Append) : RSSItem :=
  newItem (ap_format a) (ap_content a) (ap_config a) (ap_attribution a) (ap_now a).

(** A sequence of calls, first call first. *)
Definition appends (calls : list Append) (feeds : Feeds) : Feeds :=
  foldl (λ fs a, append a fs) feeds calls.

(** *** Lookups after a write *)

Lemma get_put_eq k v m :
  get k (put k v m) = match get k m with Some _ => Some v | None => None end.
Proof.
  induction m as [|[k' v'] m IH]; simpl; [done|].
  destruct (decide (k = k')) as [->|Hne]; simpl.
  - by rewrite decide_True.
  - by rewrite decide_False.
Qed.

Lemma get_put_ne k k' v m : k ≠ k' → get k' (put k v m) = get k' m.
Proof.
  intros Hne. induction m as [|[k0 v0] m IH]; simpl; [done|].
  destruct (decide (k = k0)) as [->|Hne0]; simpl.
  - by rewrite !decide_False by congruence.
  - destruct (decide (k' = k0)); [done | apply IH].
Qed.

Lemma get_snoc_eq k v m : get k m = None → get k (m ++ [(k, v)]) = Some v.
Proof.
  induction m as [|[k0 v0] m IH]; simpl.
  - by rewrite decide_True.
  - destruct (decide (k = k0)); [done | apply IH].
Qed.

Lemma get_snoc_ne k k' v m : k ≠ k' → get k' (m ++ [(k, v)]) = get k' m.
Proof.
  intros Hne. induction m as [|[k0 v0] m IH]; simpl.
  - by rewrite decide_False by congruence.
  - destruct (decide (k' = k0)); [done | apply IH].
Qed.

(** *** One append, seen from one category *)

Lemma limit_take {A} (l : list A) :
  (if (maxItemsPerFeed <? Z.of_nat (length l))%Z
   then slice0 maxItemsPerFeed l else l)
  = take (Z.to_nat maxItemsPerFeed) l.
Proof.
  destruct (maxItemsPerFeed <? Z.of_nat (length l))%Z eqn:E.
  - by apply slice0_nonneg.
  - apply Z.ltb_ge in E. symmetry. apply take_ge.
    unfold maxItemsPerFeed in *. lia.
Qed.

Lemma items_of_append_same (a : Append) (fs : Feeds) :
  items_of (ap_format a) (append a fs)
  = take (Z.to_nat maxItemsPerFeed) (item_of a :: items_of (ap_format a) fs).
Proof.
  unfold items_of, append, addItem.
  destruct (get (ap_format a) fs) as [ex|] eqn:Hget.
  - rewrite get_put_eq, Hget. cbn [items createFeedForFormat app].
    apply limit_take.
  - by rewrite get_snoc_eq.
Qed.

Lemma items_of_append_other (a : Append) (fs : Feeds) (c : string) :
  ap_format a ≠ c → items_of c (append a fs) = items_of c fs.
Proof.
  intros Hne. unfold items_of, append, addItem.
  destruct (get (ap_format a) fs) as [ex|] eqn:Hget.
  - by rewrite get_put_ne.
  - by rewrite get_snoc_ne.
Qed.

Lemma appends_snoc calls a fs :
  appends (calls ++ [a]) fs = append a (appends calls fs).
Proof. unfold appends. by rewrite foldl_snoc. Qed.

Lemma take_cons_take {A} n (x : A) l :
  take n (x :: take n l) = take n (x :: l).
Proof.
  destruct n as [|n]; [done|]. simpl. f_equal.
  rewrite take_take. f_equal. lia.
Qed.

(** The feed of a category after a sequence of appends to the empty store. *)
Lemma items_of_appends (calls : list Append) (c : string) :
  items_of c (appends calls [])
  = take (Z.to_nat maxItemsPerFeed)
         (reverse (item_of <$> filter (λ a, ap_format a = c) calls)).
Proof.
  induction calls as [|a calls IH] using rev_ind; [done|].
  rewrite appends_snoc, filter_app, fmap_app, reverse_app.
  destruct (decide (ap_format a = c)) as [<-|Hne].
  - rewrite items_of_append_same, IH.
    rewrite filter_cons_True, filter_nil by done.
    cbn [fmap list_fmap]. rewrite reverse_singleton.
    cbn [app]. apply take_cons_take.
  - rewrite items_of_append_other, IH by done.
    by rewrite filter_cons_False, filter_nil by done.
Qed.

(** C2.  After every append the feed of the category holds at most
    [maxItemsPerFeed] = 50 items: the new item is put in front of the older
    ones and what exceeds the bound is cut from the tail.  Hence, after any
    sequence of appends to the empty store, a category's feed is the newest
    [maxItemsPerFeed] of the items appended to it, newest first. *)
Theorem addItem_bounded_newest_first :
  maxItemsPerFeed = 50%Z ∧
  (∀ (fs : Feeds) (a : Append),
     items_of (ap_format a) (append a fs)
     = take (Z.to_nat maxItemsPerFeed) (item_of a :: items_of (ap_format a) fs)
     ∧ (Z.of_nat (length (items_of (ap_format a) (append a fs))) ≤ maxItemsPerFeed)%Z) ∧
  (∀ (calls : list Append) (c : string),
     items_of c (appends calls [])
     = take (Z.to_nat maxItemsPerFeed)
            (reverse (item_of <$> filter (λ a, ap_format a = c) calls))
     ∧ (Z.of_nat (length (items_of c (appends calls []))) ≤ maxItemsPerFeed)%Z).
Proof.
  split; [done|]. split.
  - intros fs a. split; [apply items_of_append_same|].
    rewrite items_of_append_same, length_take. unfold maxItemsPerFeed. lia.
  - intros calls c. split; [apply items_of_appends|].
    rewrite items_of_appends, length_take. unfold maxItemsPerFeed. lia.
Qed.

(** *** Identifiers *)

Lemma item_of_id (a : Append) :
  item_id (item_of a) = "coasagent-" +:+ ap_format a +:+ "-" +:+ pretty (ap_now a).
Proof. done. Qed.

Lemma elem_of_items_of_appends (calls : list Append) (c : string) (x : RSSItem) :
  x ∈ items_of c (appends calls []) →
  ∃ a, a ∈ calls ∧ ap_format a = c ∧ x = item_of a.
Proof.
  rewrite items_of_appends. intros Hx.
  apply elem_of_take in Hx as (i & Hi & _).
  apply list_elem_of_lookup_2, elem_of_reverse, list_elem_of_fmap in Hi
    as (a & -> & Ha).
  apply list_elem_of_filter in Ha as [Hc Ha]. eauto.
Qed.

(** C8 (amended).  The identifier of an item is fixed by its category and
    the millisecond at which it was appended: two items of one feed have the
    same identifier exactly when their publish timestamps are equal. *)
Theorem item_id_eq_iff_pubDate_eq (calls : list Append) (c : string) (x y : RSSItem) :
  x ∈ items_of c (appends calls []) →
  y ∈ items_of c (appends calls []) →
  item_id x = item_id y ↔ pubDate x = pubDate y.
Proof.
  intros (a & _ & Ha & ->)%elem_of_items_of_appends
         (b & _ & Hb & ->)%elem_of_items_of_appends.
  rewrite !item_of_id, Ha, Hb. cbn [pubDate item_of newItem]. split.
  - intros H. do 3 apply (inj (String.append _)) in H.
    by apply (inj pretty) in H.
  - by intros ->.
Qed.

End WithLocale.

(** *** Reading across categories: [getLatestItems] *)

(** The [allItems] array: feeds in the order of the map, the items of a feed
    in the order of the feed. *)
Definition allItems (feeds : Feeds) : list (string * RSSItem) :=
  feeds ≫= λ '(format, feed), (λ item, (format, item)) <$> items feed.

Definition byPubDateDesc (a b : string * RSSItem) : Z :=
  (pubDate b.2 - pubDate a.2)%Z.

Definition getLatestItems (limit : Z) (feeds : Feeds) : list (string * RSSItem) :=
  slice0 limit (sort byPubDateDesc (allItems feeds)).

(** [getLatestItems()] *)
Definition getLatestItems_default : Feeds → list (string * RSSItem) :=
  getLatestItems 10.

(** The number of items in the store. *)
Definition totalItems (feeds : Feeds) : nat :=
  sum_list ((λ '(_, feed), length (items feed)) <$> feeds).

Lemma length_allItems (feeds : Feeds) : length (allItems feeds) = totalItems feeds.
Proof.
  unfold allItems, totalItems.
  induction feeds as [|[format feed] feeds IH]; [done|].
  cbn [mbind list_bind fmap list_fmap sum_list sum_list_with].
  rewrite length_app, length_fmap. f_equal. apply IH.
Qed.

Lemma StronglySorted_take {A} (R : A → A → Prop) n (l : list A) :
  StronglySorted R l → StronglySorted R (take n l).
Proof.
  intros Hl. revert n. induction Hl as [|x l Hl IH Hall]; intros [|n]; simpl;
    try constructor; [apply IH|].
  eapply Forall_take in Hall. exact Hall.
Qed.

Lemma elem_of_allItems (fs : Feeds) (format : string) (item : RSSItem) :
  (format, item) ∈ allItems fs ↔ ∃ feed, (format, feed) ∈ fs ∧ item ∈ items feed.
Proof.
  unfold allItems. rewrite list_elem_of_bind. split.
  - intros ([k feed] & Hin & Hfeed).
    apply list_elem_of_fmap in Hin as (it & [= -> ->] & Hit). eauto.
  - intros (feed & Hfeed & Hit). exists (format, feed). split; [|done].
    apply list_elem_of_fmap. eauto.
Qed.

(** The entries of the merge with one publish time: feed after feed in the
    order of the map, and within a feed in the order of the feed. *)
Lemma filter_allItems (t : Z) (feeds : Feeds) :
  filter (λ e : string * RSSItem, pubDate e.2 = t) (allItems feeds)
  = feeds ≫= λ '(format, feed),
      (λ item, (format, item)) <$> filter (λ item, pubDate item = t) (items feed).
Proof.
  unfold allItems.
  induction feeds as [|[format feed] feeds IH]; [done|].
  cbn [mbind list_bind]. rewrite filter_app. f_equal; [|apply IH].
  clear IH. induction (items feed) as [|x l IH]; [done|].
  cbn [fmap list_fmap]. rewrite !filter_cons. cbn [snd].
  destruct (decide (pubDate x = t)); cbn [fmap list_fmap]; by rewrite <- IH.
Qed.

(** C6 (amended).  [getLatestItems N], for a count [N], is the first [N]
    entries of a list that holds the items of all feeds, each with the format
    of its feed, sorted by publish time, latest first.  Entries with equal
    publish times stand in the order of the merge: feed after feed in the
    order in which the formats were first used, and within a feed in the
    order of the feed, which is latest insertion first.  The result has at
    most [N] entries and at most as many as the store holds. *)
Theorem getLatestItems_sorted_bounded (feeds : Feeds) (N : Z) :
  (0 ≤ N)%Z →
  ∃ sorted : list (string * RSSItem),
    (∀ format item,
       (format, item) ∈ sorted ↔ ∃ feed, (format, feed) ∈ feeds ∧ item ∈ items feed) ∧
    length sorted = totalItems feeds ∧
    StronglySorted (λ a b, (pubDate b.2 ≤ pubDate a.2)%Z) sorted ∧
    (∀ t, filter (λ e, pubDate e.2 = t) sorted
          = feeds ≫= λ '(format, feed),
              (λ item, (format, item)) <$> filter (λ item, pubDate item = t) (items feed)) ∧
    getLatestItems N feeds = take (Z.to_nat N) sorted ∧
    StronglySorted (λ a b, (pubDate b.2 ≤ pubDate a.2)%Z) (getLatestItems N feeds) ∧
    (Z.of_nat (length (getLatestItems N feeds)) ≤ N)%Z ∧
    length (getLatestItems N feeds) ≤ totalItems feeds.
Proof.
  intros HN. exists (sort byPubDateDesc (allItems feeds)).
  assert (Hs : StronglySorted (λ a b : string * RSSItem, (pubDate b.2 ≤ pubDate a.2)%Z)
                 (sort byPubDateDesc (allItems feeds))).
  { apply (sort_sorted byPubDateDesc (λ e, pubDate e.2)). done. }
  assert (Hlen : length (sort byPubDateDesc (allItems feeds)) = totalItems feeds).
  { by rewrite (sort_perm byPubDateDesc (allItems feeds)), length_allItems. }
  unfold getLatestItems. rewrite slice0_nonneg by done.
  split_and!.
  - intros format item.
    rewrite (sort_perm byPubDateDesc (allItems feeds)). apply elem_of_allItems.
  - exact Hlen.
  - exact Hs.
  - intros t. rewrite <- filter_allItems.
    apply (sort_stable byPubDateDesc (λ e, pubDate e.2)). done.
  - done.
  - by apply StronglySorted_take.
  - rewrite length_take. lia.
  - rewrite length_take, Hlen. lia.
Qed.

(** *** Retention: [clearOldItems] *)

(** [new Date(Date.now() - maxAgeHours * 60 * 60 * 1000)]; [now] is the
    [Date.now()] of the call. *)
Definition cutoffTime (maxAgeHours now : Z) : option Z :=
  newDate (now - maxAgeHours * 60 * 60 * 1000)%Z.

(** The filter keeps an item when [item.pubDate > cutoffTime]. *)
Definition clearOldItems (maxAgeHours now : Z) (feeds : Feeds) : Feeds :=
  (λ '(format, feed),
     (format,
      {| channel := channel feed;
         items := filter (λ item, laterThan (cutoffTime maxAgeHours now) (pubDate item))
                         (items feed) |})) <$> feeds.

(** [clearOldItems()] : one week. *)
Definition clearOldItems_default : Z → Feeds → Feeds := clearOldItems 168.

(** The [removedCount] that the call logs for a feed. *)
Definition removedCount (maxAgeHours now : Z) (feed : RSSFeed) : Z :=
  (Z.of_nat (length (items feed))
   - Z.of_nat (length (filter (λ item, laterThan (cutoffTime maxAgeHours now) (pubDate item))
                              (items feed))))%Z.

Lemma get_clearOldItems h now c feeds :
  get c (clearOldItems h now feeds)
  = (λ feed, {| channel := channel feed;
                items := filter (λ item, laterThan (cutoffTime h now) (pubDate item))
                                (items feed) |}) <$> get c feeds.
Proof.
  unfold clearOldItems.
  induction feeds as [|[k v] feeds IH]; [done|].
  cbn [fmap list_fmap get]. destruct (decide (c = k)); [done | apply IH].
Qed.

Lemma filter_idemp {A} (P : A → Prop) `{!∀ x, Decision (P x)} (l : list A) :
  filter P (filter P l) = filter P l.
Proof.
  induction l as [|x l IH]; [done|].
  rewrite (filter_cons _ x). destruct (decide (P x)); [|done].
  by rewrite filter_cons_True, IH.
Qed.

Lemma items_of_clearOldItems h now c feeds :
  items_of c (clearOldItems h now feeds)
  = filter (λ item, laterThan (cutoffTime h now) (pubDate item)) (items_of c feeds).
Proof. unfold items_of. rewrite get_clearOldItems. by destruct (get c feeds). Qed.

(** C7 (amended).  When [now − h] hours is a time that a [Date] can hold,
    [clearOldItems h] keeps, in every feed and in order, exactly the items
    published strictly after that instant, so it removes the items published
    at or before it; when it is not, the cutoff is an Invalid Date and every
    item is removed.  In both cases a second call at the same instant finds
    nothing to remove. *)
Theorem clearOldItems_keeps_strictly_newer (feeds : Feeds) (h now : Z) :
  ((-8640000000000000 ≤ now - h * 60 * 60 * 1000 ≤ 8640000000000000)%Z →
     (∀ c, items_of c (clearOldItems h now feeds)
           = filter (λ item, (now - h * 60 * 60 * 1000 < pubDate item)%Z) (items_of c feeds)) ∧
     (∀ c item, item ∈ items_of c feeds →
        (item ∉ items_of c (clearOldItems h now feeds)
         ↔ (pubDate item ≤ now - h * 60 * 60 * 1000)%Z))) ∧
  (¬ (-8640000000000000 ≤ now - h * 60 * 60 * 1000 ≤ 8640000000000000)%Z →
     ∀ c, items_of c (clearOldItems h now feeds) = []) ∧
  clearOldItems h now (clearOldItems h now feeds) = clearOldItems h now feeds ∧
  (∀ c feed, get c (clearOldItems h now feeds) = Some feed →
     removedCount h now feed = 0%Z).
Proof.
  split_and!.
  - intros Hvalid.
    assert (Hitems : ∀ c, items_of c (clearOldItems h now feeds)
        = filter (λ item, (now - h * 60 * 60 * 1000 < pubDate item)%Z) (items_of c feeds)).
    { intros c. rewrite items_of_clearOldItems.
      unfold cutoffTime. by rewrite newDate_valid. }
    split; [exact Hitems|].
    intros c item Hin. rewrite Hitems, list_elem_of_filter. split; [|lia].
    intros Hn. destruct (decide (pubDate item ≤ now - h * 60 * 60 * 1000)%Z); [done|].
    exfalso. apply Hn. split; [lia | done].
  - intros Hinvalid c. rewrite items_of_clearOldItems.
    unfold cutoffTime. rewrite newDate_invalid by done.
    induction (items_of c feeds) as [|x l IH]; [done|].
    rewrite filter_cons_False; [exact IH | by intros []].
  - unfold clearOldItems. rewrite <- list_fmap_compose.
    apply list_fmap_ext. intros _ [k v] _. cbn. by rewrite filter_idemp.
  - intros c feed. rewrite get_clearOldItems.
    destruct (get c feeds) as [v|]; [|done]. intros [= <-].
    unfold removedCount. cbn [items]. rewrite filter_idemp. lia.
Qed.

(** *** Worked examples *)

(** A fixed rendering of dates for the examples. *)
Definition isoDate (t : Z) : string := "day " +:+ pretty (t / 86400000)%Z.
Definition isoTime (t : Z) : string := "ms " +:+ pretty (t `mod` 86400000)%Z.

Definition call (format content : string) (now : Z) : Append :=
  {| ap_format := format; ap_content := content; ap_config := sampleConfig;
     ap_attribution := "Generated from 1 sources: Twitter";
     ap_now := now; ap_now' := now |}.

(** Two categories; "b" and "c" are published in the same millisecond. *)
Definition sampleStore : Feeds :=
  appends isoDate isoTime
    [call "normal" "a" 1000; call "quote" "b" 2000; call "normal" "c" 2000;
     call "normal" "d" 3000] [].

Example sampleStore_normal :
  content <$> items_of "normal" sampleStore = ["d"; "c"; "a"].
Proof. reflexivity. Qed.

Example getLatestItems_sample :
  (λ e, (e.1, content e.2)) <$> getLatestItems 3 sampleStore
  = [("normal", "d"); ("normal", "c"); ("quote", "b")].
Proof. reflexivity. Qed.

(** A negative limit is [slice(0, -1)]: everything but the last entry. *)
Example getLatestItems_negative_limit :
  length (getLatestItems (-1) sampleStore) = 3.
Proof. reflexivity. Qed.

(** C6, as stated, fails on the order of entries with one publish time.
    Three items are inserted in the order "x", "b", "c" within one
    millisecond, "b" under another format: [getLatestItems] lists "c" before
    "x", the later insertion first, and "x" before "b", the earlier insertion
    first, so the ties follow the order of insertion in neither direction. *)
Lemma getLatestItems_ties_not_by_insertion :
  (λ e, (e.1, content e.2, pubDate e.2)) <$>
    getLatestItems 10
      (appends isoDate isoTime
         [call "normal" "x" 2000; call "quote" "b" 2000; call "normal" "c" 2000] [])
  = [("normal", "c", 2000%Z); ("normal", "x", 2000%Z); ("quote", "b", 2000%Z)].
Proof. reflexivity. Qed.

(** The bound and the order, at the sample store with a limit of three. *)
Lemma getLatestItems_sorted_bounded_witness :
  (0 ≤ 3)%Z ∧
  ∃ sorted : list (string * RSSItem),
    (∀ format item,
       (format, item) ∈ sorted
       ↔ ∃ feed, (format, feed) ∈ sampleStore ∧ item ∈ items feed) ∧
    length sorted = totalItems sampleStore ∧
    StronglySorted (λ a b, (pubDate b.2 ≤ pubDate a.2)%Z) sorted ∧
    (∀ t, filter (λ e, pubDate e.2 = t) sorted
          = sampleStore ≫= λ '(format, feed),
              (λ item, (format, item)) <$> filter (λ item, pubDate item = t) (items feed)) ∧
    getLatestItems 3 sampleStore = take (Z.to_nat 3) sorted ∧
    StronglySorted (λ a b, (pubDate b.2 ≤ pubDate a.2)%Z) (getLatestItems 3 sampleStore) ∧
    (Z.of_nat (length (getLatestItems 3 sampleStore)) ≤ 3)%Z ∧
    length (getLatestItems 3 sampleStore) ≤ totalItems sampleStore.
Proof.
  split; [lia|]. apply (getLatestItems_sorted_bounded sampleStore 3). lia.
Defined.

(** C7, as stated, fails at the cutoff itself: an item published exactly
    [h] hours before [now] is not older than [now − h], and is removed. *)
Lemma clearOldItems_removes_item_at_cutoff :
  ∃ item : RSSItem,
    items_of "normal" (appends isoDate isoTime [call "normal" "a" 1000] []) = [item] ∧
    ¬ (pubDate item < 3601000 - 1 * 60 * 60 * 1000)%Z ∧
    items_of "normal"
      (clearOldItems 1 3601000 (appends isoDate isoTime [call "normal" "a" 1000] [])) = [].
Proof.
  eexists. split; [reflexivity|]. split; [|reflexivity].
  cbn. lia.
Qed.

(** A cutoff outside the range of [Date]: no item is older than it, and
    every item is removed. *)
Example clearOldItems_invalid_cutoff :
  (∀ item, item ∈ items_of "normal" sampleStore →
     ¬ (pubDate item < 5000 - 3000000000 * 60 * 60 * 1000)%Z) ∧
  length (items_of "normal" sampleStore) = 3 ∧
  items_of "normal" (clearOldItems 3000000000 5000 sampleStore) = [].
Proof.
  split; [|split; reflexivity].
  intros item Hin. vm_compute in Hin.
  repeat (apply elem_of_cons in Hin as [->|Hin]; [cbn; lia|]).
  by apply elem_of_nil in Hin.
Qed.

(** The sample store purged with a cutoff of 2000 ms, and with a cutoff
    that no [Date] holds. *)
Lemma clearOldItems_keeps_strictly_newer_witness :
  (-8640000000000000 ≤ 3602000 - 1 * 60 * 60 * 1000 ≤ 8640000000000000)%Z ∧
  content <$> items_of "normal" (clearOldItems 1 3602000 sampleStore) = ["d"] ∧
  ¬ (-8640000000000000 ≤ 5000 - 3000000000 * 60 * 60 * 1000 ≤ 8640000000000000)%Z ∧
  items_of "normal" (clearOldItems 3000000000 5000 sampleStore) = [].
Proof.
  destruct (clearOldItems_keeps_strictly_newer sampleStore 1 3602000) as (Hvalid & _).
  destruct (clearOldItems_keeps_strictly_newer sampleStore 3000000000 5000)
    as (_ & Hinvalid & _).
  assert (H1 : (-8640000000000000 ≤ 3602000 - 1 * 60 * 60 * 1000 ≤ 8640000000000000)%Z)
    by lia.
  assert (H2 : ¬ (-8640000000000000 ≤ 5000 - 3000000000 * 60 * 60 * 1000
                  ≤ 8640000000000000)%Z) by lia.
  split; [exact H1|]. split.
  - destruct (Hvalid H1) as [Hitems _]. rewrite Hitems. reflexivity.
  - split; [exact H2 | exact (Hinvalid H2 "normal")].
Defined.

(** C8, as stated, fails for two appends within one millisecond: the feed
    then holds two different items with one identifier. *)
Lemma item_id_shared_within_millisecond :
  ∃ x y : RSSItem,
    items_of "normal"
      (appends isoDate isoTime [call "normal" "first" 5000; call "normal" "second" 5000] [])
    = [y; x] ∧
    x ≠ y ∧ item_id x = item_id y.
Proof.
  eexists _, _. split; [reflexivity|]. split; [|reflexivity].
  intros H. by apply (f_equal content) in H.
Qed.

(** Two appends one millisecond apart: different identifiers. *)
Lemma item_id_eq_iff_pubDate_eq_witness :
  let calls := [call "normal" "first" 5000; call "normal" "second" 5001] in
  let x := item_of isoDate isoTime (call "normal" "first" 5000) in
  let y := item_of isoDate isoTime (call "normal" "second" 5001) in
  x ∈ items_of "normal" (appends isoDate isoTime calls []) ∧
  y ∈ items_of "normal" (appends isoDate isoTime calls []) ∧
  (item_id x = item_id y ↔ pubDate x = pubDate y).
Proof.
  intros calls x y.
  assert (Hx : x ∈ items_of "normal" (appends isoDate isoTime calls []))
    by (vm_compute; repeat constructor).
  assert (Hy : y ∈ items_of "normal" (appends isoDate isoTime calls []))
    by (vm_compute; repeat constructor).
  split; [exact Hx|]. split; [exact Hy|].
  exact (item_id_eq_iff_pubDate_eq isoDate isoTime calls "normal" x y Hx Hy).
Defined.

End RSS.

(** ** The resilient client  (AIClient) *)

(** [hay.includes(needle)] *)
Fixpoint includes (needle hay : string) : bool :=
  if String.prefix needle hay then true
  else match hay with
       | EmptyString => false
       | String _ rest => includes needle rest
       end.

Module AIClient.

(** What a generation backend answers, as far as [generateResponse] looks at
    it: a response, or a rejection.  The handler reads [error.message] and
    asks it twice with [includes].  [Threw message] is a rejection with an
    [Error] whose message is [message], or with a value whose message
    answers [includes] as that string does; [ThrewOther] is a rejection with
    a value on which these reads throw a [TypeError]: [null], [undefined],
    or a value whose [message] is not a string. *)
Inductive CallResult :=
  | Returned (response : string)
  | Threw (message : string)
  | ThrewOther.

(** The object's fields.  [geminiClient] tells whether the constructor found
    an API key and built a [GeminiClient]. *)
Record State := {
  models : list string;
  currentModelIndex : nat;
  rateLimitCooldown : gmap string Z;
  geminiClient : bool
}.

(** [new AIClient()] *)
Definition init (hasApiKey : bool) : State :=
  {| models := ["gemini-2.0-flash-exp"; "gemini-1.5-pro"; "gemini-1.5-flash"];
     currentModelIndex := 0;
     rateLimitCooldown := ∅;
     geminiClient := hasApiKey |}.

Definition set_currentModelIndex (i : nat) (s : State) : State :=
  {| models := models s;
     currentModelIndex := i;
     rateLimitCooldown := rateLimitCooldown s;
     geminiClient := geminiClient s |}.

Definition set_cooldown (model : string) (until : Z) (s : State) : State :=
  {| models := models s;
     currentModelIndex := currentModelIndex s;
     rateLimitCooldown := <[model := until]> (rateLimitCooldown s);
     geminiClient := geminiClient s |}.

(** [this.models[this.currentModelIndex]]; an index outside the array reads
    [undefined], which as a property key and in a template is "undefined". *)
Definition getCurrentModel (s : State) : string :=
  default "undefined" (models s !! currentModelIndex s).

(** [this.rateLimitCooldown[model] && now < this.rateLimitCooldown[model]] *)
Definition inCooldown (s : State) (model : string) (now : Z) : bool :=
  match rateLimitCooldown s !! model with
  | Some until => negb (until =? 0)%Z && (now <? until)%Z
  | None => false
  end.

Definition downgradeModel (s : State) : State :=
  if (Z.of_nat (currentModelIndex s) <? Z.of_nat (length (models s)) - 1)%Z
  then set_currentModelIndex (S (currentModelIndex s)) s
  else s.

Definition noRecentRateLimits (s : State) (now : Z) : bool :=
  negb (bool_decide (map_Exists (λ _ cooldownTime, (now < cooldownTime)%Z)
                                (rateLimitCooldown s))).

(** [now] is read only when the first conjunct holds. *)
Definition upgradeModelIfPossible (now : Z) (s : State) : State :=
  if (0 <? currentModelIndex s) && noRecentRateLimits s now
  then set_currentModelIndex (currentModelIndex s - 1) s
  else s.

Definition isRateLimit (message : string) : bool :=
  includes "rate_limit" message || includes "quota" message.

Definition cooldownMs : Z := 5 * 60 * 1000.

(** The world during one turn of the loop: the clock at the cooldown check,
    what each way of calling a backend would answer, and the clock after the
    call (read by the handler of a rate limit, or by the upgrade). *)
Record Tick := {
  check_time : Z;
  generateContent : string → CallResult;
  makeAPICall : string → string → CallResult;
  after_time : Z
}.

(** What a turn sends out: with a [GeminiClient] the prompt, and nothing of
    the model of the turn; without one the model and the prompt. *)
Inductive Request :=
  | GenerateContent (prompt : string)
  | MakeAPICall (model prompt : string).

(** [this.geminiClient ? this.geminiClient.generateContent(prompt)
                       : this.makeAPICall(model, prompt)] *)
Definition request (s : State) (prompt : string) : Request :=
  if geminiClient s then GenerateContent prompt
  else MakeAPICall (getCurrentModel s) prompt.

Definition answer (w : Tick) (r : Request) : CallResult :=
  match r with
  | GenerateContent prompt => generateContent w prompt
  | MakeAPICall model prompt => makeAPICall w model prompt
  end.

(** How a turn ends: the model was in cooldown and no call was made; the
    call was rejected and the handler ran to its end; the call returned; or
    the call was rejected and the handler itself threw. *)
Inductive Outcome :=
  | Skipped
  | Failed (message : string)
  | Succeeded (response : string)
  | Crashed.

(** The body of the [while] loop.  When the handler throws, it does so at
    its first or second statement, before the cooldown table or the cursor
    is written. *)
Definition attempt (prompt : string) (w : Tick) (s : State) : State * Outcome :=
  let model := getCurrentModel s in
  if inCooldown s model (check_time w)
  then (downgradeModel s, Skipped)
  else
    match answer w (request s prompt) with
    | Returned response => (upgradeModelIfPossible (after_time w) s, Succeeded response)
    | Threw message =>
        let s1 := if isRateLimit message
                  then set_cooldown model (after_time w + cooldownMs) s
                  else s in
        (downgradeModel s1, Failed message)
    | ThrewOther => (s, Crashed)
    end.

(** One turn of the loop as it was run. *)
Record Attempt := {
  asked : string;
  before : State;
  tick : Tick;
  outcome : Outcome;
  after : State
}.

Definition target (e : Attempt) : string := getCurrentModel (before e).
Definition rank (e : Attempt) : nat := currentModelIndex (before e).

(** How the call ends: it returns a response, it throws an [Error] of its
    own with a message, or the [TypeError] of the handler escapes. *)
Inductive Result :=
  | Return (response : string)
  | Throw (message : string)
  | ThrowTypeError.

Definition exhausted : string := "All models exhausted after maximum retries".

(** [generateResponse]: [world k] is the world during turn [k].  The loop
    runs on fuel; [generateResponse] supplies enough of it. *)
Fixpoint generateLoop (fuel : nat) (prompt : string) (maxRetries : Z)
    (world : nat → Tick) (attempts : Z) (s : State)
    : option (State * Result * list Attempt) :=
  match fuel with
  | O => None
  | S fuel' =>
      if (attempts <? maxRetries)%Z then
        let w := world (Z.to_nat attempts) in
        let '(s', o) := attempt prompt w s in
        let e := {| asked := prompt; before := s; tick := w; outcome := o; after := s' |} in
        match o with
        | Succeeded response => Some (s', Return response, [e])
        | Crashed => Some (s', ThrowTypeError, [e])
        | Skipped | Failed _ =>
            '(s'', r, log) ← generateLoop fuel' prompt maxRetries world (attempts + 1) s';
            Some (s'', r, e :: log)
        end
      else Some (s, Throw exhausted, [])
  end.

Definition generateResponse (prompt : string) (maxRetries : Z)
    (world : nat → Tick) (s : State) : option (State * Result * list Attempt) :=
  generateLoop (S (Z.to_nat maxRetries)) prompt maxRetries world 0 s.

(** [generateResponse(prompt)] *)
Definition generateResponse_default (prompt : string) :=
  generateResponse prompt 3.

(** A caller's use of the client: one [generateResponse] after the other on
    the same object, whether the one before returned or threw.
    ([generateResponse] always answers, see [generateResponse_spec]; the
    last branch of [session] is never taken.) *)
Record Call := {
  prompt : string;
  maxRetries : Z;
  world : nat → Tick
}.

Fixpoint session (calls : list Call) (s : State)
    : State * list Result * list Attempt :=
  match calls with
  | [] => (s, [], [])
  | c :: rest =>
      match generateResponse (prompt c) (maxRetries c) (world c) s with
      | Some (s', r, log) =>
          let '(s'', rs, logs) := session rest s' in (s'', r :: rs, log ++ logs)
      | None => (s, [], [])
      end
  end.

(** *** Turns as they follow each other *)

(** A turn after which the loop goes on: the model was skipped, or the call
    failed and the handler ran. *)
Definition retried (e : Attempt) : Prop :=
  outcome e = Skipped ∨ ∃ message, outcome e = Failed message.

(** [Run s log s']: the turns of [log] are turns of the loop body, the first
    one starts in [s], each starts in the state the one before it left, and
    the last one leaves [s']. *)
Inductive Run : State → list Attempt → State → Prop :=
  | Run_nil s : Run s [] s
  | Run_cons e log s' :
      attempt (asked e) (tick e) (before e) = (after e, outcome e) →
      Run (after e) log s' →
      Run (before e) (e :: log) s'.

Lemma Run_app s l1 s1 l2 s2 : Run s l1 s1 → Run s1 l2 s2 → Run s (l1 ++ l2) s2.
Proof. induction 1; simpl; [done|]. intros. constructor; auto. Qed.

Lemma Run_split s l1 l2 s2 :
  Run s (l1 ++ l2) s2 → ∃ s1, Run s l1 s1 ∧ Run s1 l2 s2.
Proof.
  revert s. induction l1 as [|e l1 IH]; simpl; intros s H.
  - exists s. split; [constructor | done].
  - inversion H as [|e' log s' He Hlog]; subst.
    destruct (IH _ Hlog) as (s1 & H1 & H2).
    exists s1. split; [by constructor | done].
Qed.

Lemma Run_turns (T : Attempt → Prop) s log s' :
  (∀ e, attempt (asked e) (tick e) (before e) = (after e, outcome e) → T e) →
  Run s log s' → Forall T log.
Proof.
  intros Hturn. induction 1 as [s|e log s' He Hrun IH]; [done|].
  constructor; [by apply Hturn | done].
Qed.

Lemma attempt_models prompt w s :
  models (attempt prompt w s).1 = models s.
Proof.
  unfold attempt, downgradeModel, upgradeModelIfPossible.
  repeat (case_match; simpl; try done).
Qed.

Lemma attempt_geminiClient prompt w s :
  geminiClient (attempt prompt w s).1 = geminiClient s.
Proof.
  unfold attempt, downgradeModel, upgradeModelIfPossible.
  repeat (case_match; simpl; try done).
Qed.

(** *** The loop *)

(** What a run of the loop from turn [attempts] on must satisfy. *)
Definition loopPost (prompt : string) (maxRetries : Z) (world : nat → Tick)
    (attempts : Z) (s : State) (out : State * Result * list Attempt) : Prop :=
  let '(s', r, log) := out in
  Run s log s' ∧
  Forall (λ e, asked e = prompt) log ∧
  (∀ i e, log !! i = Some e → tick e = world (Z.to_nat attempts + i)) ∧
  length log ≤ Z.to_nat (maxRetries - attempts) ∧
  match r with
  | Throw message =>
      message = exhausted ∧ Forall retried log ∧
      length log = Z.to_nat (maxRetries - attempts)
  | Return response =>
      ∃ init e, log = init ++ [e] ∧ Forall retried init ∧
                outcome e = Succeeded response
  | ThrowTypeError =>
      ∃ init e, log = init ++ [e] ∧ Forall retried init ∧ outcome e = Crashed
  end.

Lemma generateLoop_spec (fuel : nat) prompt (maxRetries : Z) world
    (attempts : Z) (s : State) :
  (0 ≤ attempts)%Z →
  Z.to_nat (maxRetries - attempts) < fuel →
  ∃ out,
    generateLoop fuel prompt maxRetries world attempts s = Some out ∧
    loopPost prompt maxRetries world attempts s out.
Proof.
  revert attempts s. induction fuel as [|fuel IH]; intros attempts s Ha Hfuel; [lia|].
  cbn [generateLoop].
  destruct (attempts <? maxRetries)%Z eqn:Hlt.
  - apply Z.ltb_lt in Hlt.
    destruct (attempt prompt (world (Z.to_nat attempts)) s) as [s1 o] eqn:Hatt.
    set (e := {| asked := prompt; before := s; tick := world (Z.to_nat attempts);
                 outcome := o; after := s1 |}).
    assert (Hran : attempt (asked e) (tick e) (before e) = (after e, outcome e)) by done.
    assert (Htick0 : tick e = world (Z.to_nat attempts + 0)) by (cbn; f_equal; lia).
    destruct (IH (attempts + 1)%Z s1)
      as ([[s' r] log] & Hloop & Hrun & Hasked & Htick & Hmost & Hres); [lia | lia |].
    assert (Hlater : retried e → ∃ out,
      ('(s'', r, log) ← generateLoop fuel prompt maxRetries world (attempts + 1) s1;
       Some (s'', r, e :: log)) = Some out ∧
      loopPost prompt maxRetries world attempts s out).
    { intros He. exists (s', r, e :: log). rewrite Hloop. split; [done|].
      split_and!.
      - by apply (Run_cons e log s').
      - by constructor.
      - intros [|i] e'; cbn.
        + by intros [= <-].
        + intros Hi. rewrite (Htick i e' Hi). f_equal. lia.
      - simpl. lia.
      - destruct r as [response|message|].
        + destruct Hres as (init & e' & -> & Hall & Hout).
          exists (e :: init), e'. split_and!; [done | by constructor | done].
        + destruct Hres as (-> & Hall & Hlen).
          split_and!; [done | by constructor | simpl; lia].
        + destruct Hres as (init & e' & -> & Hall & Hout).
          exists (e :: init), e'. split_and!; [done | by constructor | done]. }
    assert (Hlast : ∀ r0,
      match r0 with
      | Return response => o = Succeeded response
      | Throw _ => False
      | ThrowTypeError => o = Crashed
      end →
      loopPost prompt maxRetries world attempts s (s1, r0, [e])).
    { intros r0 Hr. split_and!.
      - apply (Run_cons e [] s1); [done | constructor].
      - by repeat constructor.
      - intros [|i] e'; cbn; [by intros [= <-] | done].
      - simpl. lia.
      - destruct r0 as [response|message|]; [|done|]; by exists [], e. }
    destruct o as [|message|response|].
    + apply Hlater. by left.
    + apply Hlater. right. by exists message.
    + exists (s1, Return response, [e]). split; [done | by apply Hlast].
    + exists (s1, ThrowTypeError, [e]). split; [done | by apply Hlast].
  - apply Z.ltb_ge in Hlt.
    exists (s, Throw exhausted, []). split; [done|].
    split_and!; [constructor | done | done | simpl; lia | done | done | simpl; lia].
Qed.

Lemma generateResponse_spec prompt maxRetries world s :
  ∃ out,
    generateResponse prompt maxRetries world s = Some out ∧
    loopPost prompt maxRetries world 0 s out.
Proof.
  unfold generateResponse. apply generateLoop_spec; [done|].
  rewrite Z.sub_0_r. lia.
Qed.

Lemma generateResponse_Run prompt maxRetries world s s' r log :
  generateResponse prompt maxRetries world s = Some (s', r, log) → Run s log s'.
Proof.
  intros H. destruct (generateResponse_spec prompt maxRetries world s)
    as (out & Hout & Hpost).
  rewrite H in Hout. injection Hout as <-. apply Hpost.
Qed.

Lemma session_Run calls s s' rs log :
  session calls s = (s', rs, log) → Run s log s'.
Proof.
  revert s s' rs log. induction calls as [|c calls IH]; intros s s' rs log; simpl.
  - intros [= <- <- <-]. constructor.
  - destruct (generateResponse (prompt c) (maxRetries c) (world c) s)
      as [[[s1 r] log1]|] eqn:Hgen.
    + destruct (session calls s1) as [[s2 rs2] log2] eqn:Hrest.
      intros [= <- <- <-].
      eapply Run_app; [by eapply generateResponse_Run | by eapply IH].
    + intros [= <- <- <-]. constructor.
Qed.

Lemma Run_models s log s' :
  Run s log s' → models s' = models s ∧ Forall (λ e, models (before e) = models s) log.
Proof.
  induction 1 as [s|e log s' He Hrun [IH1 IH2]]; [by split|].
  assert (Hm : models (after e) = models (before e)).
  { pose proof (attempt_models (asked e) (tick e) (before e)) as Hm.
    by rewrite He in Hm. }
  rewrite Hm in IH1, IH2. split; [done|]. by constructor.
Qed.

Lemma Run_geminiClient s log s' :
  Run s log s' →
  geminiClient s' = geminiClient s ∧
  Forall (λ e, geminiClient (before e) = geminiClient s) log.
Proof.
  induction 1 as [s|e log s' He Hrun [IH1 IH2]]; [by split|].
  assert (Hm : geminiClient (after e) = geminiClient (before e)).
  { pose proof (attempt_geminiClient (asked e) (tick e) (before e)) as Hm.
    by rewrite He in Hm. }
  rewrite Hm in IH1, IH2. split; [done|]. by constructor.
Qed.

(** *** One turn *)


Lemma attempt_rate_limited_at_rank0 prompt w s s' message :
  currentModelIndex s = 0 →
  2 ≤ length (models s) →
  attempt prompt w s = (s', Failed message) →
  isRateLimit message = true →
  rateLimitCooldown s' !! getCurrentModel s = Some (after_time w + cooldownMs)%Z ∧
  currentModelIndex s' = 1.
Proof.
  intros Hidx Hlen. unfold attempt.
  destruct (inCooldown _ _ _); [done|].
  destruct (answer w (request s prompt)) as [|m|]; [done| |done].
  intros [= <- ->] ->. unfold downgradeModel. cbn [set_cooldown currentModelIndex models].
  rewrite Hidx.
  destruct (Z.of_nat 0 <? Z.of_nat (length (models s)) - 1)%Z eqn:E;
    [|apply Z.ltb_ge in E; lia].
  cbn. split; [apply lookup_insert_eq | done].
Qed.


(** C10.  With a budget of zero the loop is not entered: the call throws the
    exhausted-retries error, no turn is made, and the object is as it was. *)
Theorem generateResponse_zero_budget (prompt : string) (world : nat → Tick) (s : State) :
  generateResponse prompt 0 world s
  = Some (s, Throw "All models exhausted after maximum retries", []).
Proof. reflexivity. Qed.

(** In the turns of any sequence of calls on one client with at least two
    models: when a turn on the model of rank 0 fails with a rate-limit or
    quota error, that model's cooldown is set to the clock plus five minutes,
    and the turn that follows it, in the same call or in the next one, is on
    rank 1, under another model name, and finds the first model in cooldown
    until the five minutes are over.  What the turn sends depends on the
    client: without a [GeminiClient] the request carries the other model;
    with one it is the request of the turn before, for the same prompt. *)
Lemma turn_after_rate_limit (calls : list Call) (s s' : State)
    (rs : list Result) (pre post : list Attempt) (e1 e2 : Attempt) (message : string) :
  2 ≤ length (models s) →
  session calls s = (s', rs, pre ++ e1 :: e2 :: post) →
  rank e1 = 0 →
  outcome e1 = Failed message →
  isRateLimit message = true →
  rateLimitCooldown (after e1) !! target e1
    = Some (after_time (tick e1) + 5 * 60 * 1000)%Z ∧
  before e2 = after e1 ∧
  rank e2 = 1 ∧
  (NoDup (models s) → target e2 ≠ target e1) ∧
  ((after_time (tick e1) + 5 * 60 * 1000 ≠ 0)%Z →
   (check_time (tick e2) < after_time (tick e1) + 5 * 60 * 1000)%Z →
   inCooldown (before e2) (target e1) (check_time (tick e2)) = true) ∧
  (geminiClient s = false → NoDup (models s) →
   ∀ p1 p2, request (before e2) p2 ≠ request (before e1) p1) ∧
  (geminiClient s = true →
   ∀ p, request (before e2) p = request (before e1) p).
Proof.
  intros Hlen Hsess Hrank Hout Hmsg.
  apply session_Run in Hsess.
  destruct (Run_models _ _ _ Hsess) as [_ Hmodels].
  apply Forall_app in Hmodels as [_ Hmodels].
  apply Forall_cons in Hmodels as [Hm1 Hmodels].
  apply Forall_cons in Hmodels as [Hm2 _].
  destruct (Run_geminiClient _ _ _ Hsess) as [_ Hclient].
  apply Forall_app in Hclient as [_ Hclient].
  apply Forall_cons in Hclient as [Hg1 Hclient].
  apply Forall_cons in Hclient as [Hg2 _].
  apply Run_split in Hsess as (s1 & _ & Hsess).
  inversion Hsess as [|e log s2 He1 Hrest]; subst.
  inversion Hrest as [|e log s3 He2 _ Hbefore]; subst.
  rewrite Hout in He1.
  apply attempt_rate_limited_at_rank0 in He1 as [Hcd Hidx];
    [| done | by rewrite Hm1 | done].
  unfold rank, target. rewrite <- Hbefore in *.
  assert (Hne : NoDup (models s) → getCurrentModel (before e2) ≠ getCurrentModel (before e1)).
  { intros Hnodup. unfold getCurrentModel, rank in *.
    rewrite Hidx, Hrank, Hm1, Hm2.
    destruct (models s) as [|m0 [|m1 ms]]; simpl in *; [lia | lia |].
    apply NoDup_cons in Hnodup as [Hnotin _].
    intros <-. apply Hnotin. constructor. }
  split_and!; [done | done | done | done | | |].
  - intros Hnz Hlt. unfold inCooldown. rewrite Hcd.
    change cooldownMs with (5 * 60 * 1000)%Z.
    apply andb_true_intro. split.
    + apply negb_true_iff, Z.eqb_neq. exact Hnz.
    + by apply Z.ltb_lt.
  - intros Hg Hnodup p1 p2. unfold request. rewrite Hg1, Hg2, Hg.
    intros [= Heq _]. by apply Hne.
  - intros Hg p. unfold request. by rewrite Hg1, Hg2, Hg.
Qed.

(** *** Worked examples *)

Definition rateLimited (t : Z) : Tick :=
  {| check_time := t;
     generateContent := λ _, Threw "rate_limit: Too many requests";
     makeAPICall := λ _ _, Threw "rate_limit: Too many requests";
     after_time := (t + 1000)%Z |}.

Definition answering (t : Z) : Tick :=
  {| check_time := t;
     generateContent := λ _, Returned "Gemini response";
     makeAPICall := λ model _, Returned ("Mock AI response for model " +:+ model);
     after_time := (t + 1000)%Z |}.


(** The first turn is rate limited, later ones are answered. *)
Definition sampleWorld (k : nat) : Tick :=
  match k with
  | 0 => rateLimited 10
  | S k' => answering (2000 * Z.of_nat k)
  end.

Definition sampleCall : Call :=
  {| prompt := "Summarise"; maxRetries := 3; world := sampleWorld |}.

(** A call with a budget of one turn that is rate limited, then a call that
    is answered. *)
Definition sampleCalls : list Call :=
  [ {| prompt := "Summarise"; maxRetries := 1; world := λ _, rateLimited 10 |};
    {| prompt := "Summarise"; maxRetries := 3; world := λ _, answering 5000 |} ].

Example sampleCall_targets :
  (λ e, (rank e, target e)) <$> (session [sampleCall] (init false)).2
  = [(0, "gemini-2.0-flash-exp"); (1, "gemini-1.5-pro")].
Proof. vm_compute. reflexivity. Qed.

Example sampleCall_result :
  (session [sampleCall] (init false)).1.2
  = [Return "Mock AI response for model gemini-1.5-pro"].
Proof. vm_compute. reflexivity. Qed.

Example sampleCalls_targets :
  (λ e, (rank e, target e)) <$> (session sampleCalls (init false)).2
  = [(0, "gemini-2.0-flash-exp"); (1, "gemini-1.5-pro")].
Proof. vm_compute. reflexivity. Qed.

Example sampleCalls_results :
  (session sampleCalls (init false)).1.2
  = [Throw exhausted; Return "Mock AI response for model gemini-1.5-pro"].
Proof. vm_compute. reflexivity. Qed.

(** Without a [GeminiClient] the model of the turn is part of the request. *)
Example sampleCalls_requests :
  (λ e, request (before e) (asked e)) <$> (session sampleCalls (init false)).2
  = [MakeAPICall "gemini-2.0-flash-exp" "Summarise";
     MakeAPICall "gemini-1.5-pro" "Summarise"].
Proof. vm_compute. reflexivity. Qed.

(** Every turn fails: three turns, then the error. *)
Example all_rate_limited :
  ∃ s' log,
    generateResponse "Summarise" 3 (λ _, rateLimited 10) (init true)
    = Some (s', Throw exhausted, log) ∧
    (λ e, (rank e, target e)) <$> log
    = [(0, "gemini-2.0-flash-exp"); (1, "gemini-1.5-pro"); (2, "gemini-1.5-flash")].
Proof. eexists _, _. split; vm_compute; reflexivity. Qed.

(** C3.  A client built with an API key, and two calls one after the other.
    The only turn of the first call is on rank 0 and fails with a rate-limit
    error: the cooldown of that model is set to the clock plus five minutes.
    The turn that follows, in the second call, is on rank 1 under another
    model name and finds the first model in cooldown, but what it sends is
    what the turn before sent, [generateContent(prompt)]: the model of the
    turn is no part of the request, and the backend that has just answered
    with a rate limit is asked again. *)
Theorem rate_limit_at_rank0_repeats_request :
  ∃ s' e1 e2,
    session sampleCalls (init true)
    = (s', [Throw exhausted; Return "Gemini response"], [e1; e2]) ∧
    rank e1 = 0 ∧
    outcome e1 = Failed "rate_limit: Too many requests" ∧
    isRateLimit "rate_limit: Too many requests" = true ∧
    rateLimitCooldown (after e1) !! target e1
      = Some (after_time (tick e1) + 5 * 60 * 1000)%Z ∧
    before e2 = after e1 ∧
    inCooldown (before e2) (target e1) (check_time (tick e2)) = true ∧
    rank e2 = 1 ∧
    target e1 = "gemini-2.0-flash-exp" ∧
    target e2 = "gemini-1.5-pro" ∧
    request (before e1) (asked e1) = GenerateContent "Summarise" ∧
    request (before e2) (asked e2) = GenerateContent "Summarise" ∧
    outcome e2 = Succeeded "Gemini response".
Proof.
  eexists _, _, _. split; [vm_compute; reflexivity|].
  split_and!; vm_compute; reflexivity.
Qed.


End AIClient.

(** ** The instance manager  (InstanceManager) *)

(** [[...new Set(arr)]]: the members of the array, each once, in the order
    of their first occurrence. *)
Definition distinct (l : list string) : list string :=
  foldl (λ acc x, if decide (x ∈ acc) then acc else acc ++ [x]) [] l.

Lemma distinct_from (l acc : list string) :
  NoDup acc →
  ∃ rest,
    foldl (λ acc x, if decide (x ∈ acc) then acc else acc ++ [x]) acc l = acc ++ rest ∧
    NoDup (acc ++ rest) ∧
    (∀ x, x ∈ rest ↔ x ∈ l ∧ x ∉ acc) ∧
    rest `sublist_of` l.
Proof.
  revert acc. induction l as [|x l IH]; intros acc Hacc; cbn [foldl].
  - exists []. rewrite app_nil_r. split_and!; [done | done | | done].
    intros x. split; [by intros ?%elem_of_nil | by intros [?%elem_of_nil _]].
  - destruct (decide (x ∈ acc)) as [Hin|Hnotin].
    + destruct (IH acc Hacc) as (rest & Heq & Hnd & Hmem & Hsub).
      exists rest. split_and!; [done | done | | by apply sublist_cons].
      intros y. rewrite Hmem, elem_of_cons. split.
      * intros [Hy Hn]. split; [by right | done].
      * intros [[->|Hy] Hn]; [done | by split].
    + assert (Hacc' : NoDup (acc ++ [x])).
      { apply NoDup_app. split_and!; [done | | apply NoDup_singleton].
        intros y Hy ->%list_elem_of_singleton. done. }
      destruct (IH (acc ++ [x]) Hacc') as (rest & Heq & Hnd & Hmem & Hsub).
      exists (x :: rest). rewrite <- app_assoc in Heq, Hnd.
      split_and!; [done | done | | by apply sublist_skip].
      intros y. rewrite !elem_of_cons, Hmem, elem_of_app, list_elem_of_singleton.
      destruct (decide (y = x)) as [->|Hne]; [tauto|]. tauto.
Qed.

Lemma distinct_spec (l : list string) :
  NoDup (distinct l) ∧ (∀ x, x ∈ distinct l ↔ x ∈ l) ∧ distinct l `sublist_of` l.
Proof.
  destruct (distinct_from l [] (NoDup_nil_2)) as (rest & Heq & Hnd & Hmem & Hsub).
  unfold distinct. rewrite Heq. cbn [app] in *. split_and!; [done | | done].
  intros x. rewrite Hmem. split; [by intros [? _]|]. intros Hx. split; [done|].
  apply not_elem_of_nil.
Qed.

Module InstanceManager.

Inductive Status := running | stopped | error.

Global Instance Status_eq_dec : EqDecision Status.
Proof. solve_decision. Defined.

(** [cronJob] is the handle that [setInterval] returned, when there is one. *)
Record AgentInstance := {
  inst_id : string;
  config : AgentConfig;
  status : Status;
  lastUpdate : Z;
  cronJob : option nat
}.

(** The manager with the two things it acts on: the timers of the host and
    the feed store [rssManager].
    - [intervals]: the armed [setInterval] timers, each with the instance its
      callback runs a cycle for;
    - [timeouts]: the [setTimeout] callbacks not yet run, oldest first (the
      delay is the same for all, and nothing clears them);
    - [nextHandle]: the handle the next [setInterval] returns. *)
Record System := {
  instances : gmap string AgentInstance;
  intervals : gmap nat string;
  timeouts : list string;
  nextHandle : nat;
  rssManager : RSS.Feeds
}.

Definition init : System :=
  {| instances := ∅; intervals := ∅; timeouts := []; nextHandle := 1;
     rssManager := [] |}.

Definition set_instances (f : gmap string AgentInstance → gmap string AgentInstance)
    (sys : System) : System :=
  {| instances := f (instances sys);
     intervals := intervals sys;
     timeouts := timeouts sys;
     nextHandle := nextHandle sys;
     rssManager := rssManager sys |}.

Definition set_status (st : Status) (i : AgentInstance) : AgentInstance :=
  {| inst_id := inst_id i; config := config i; status := st;
     lastUpdate := lastUpdate i; cronJob := cronJob i |}.

Definition set_lastUpdate (t : Z) (i : AgentInstance) : AgentInstance :=
  {| inst_id := inst_id i; config := config i; status := status i;
     lastUpdate := t; cronJob := cronJob i |}.

Definition set_cronJob (h : option nat) (i : AgentInstance) : AgentInstance :=
  {| inst_id := inst_id i; config := config i; status := status i;
     lastUpdate := lastUpdate i; cronJob := h |}.

Definition set_config (c : AgentConfig) (i : AgentInstance) : AgentInstance :=
  {| inst_id := inst_id i; config := c; status := status i;
     lastUpdate := lastUpdate i; cronJob := cronJob i |}.

(** [generateInstanceId]; [rnd] is [Math.random().toString(36).substr(2, 9)]. *)
Definition generateInstanceId (now : Z) (rnd : string) : string :=
  "agent-" +:+ pretty now +:+ "-" +:+ rnd.

Definition createInstance (now : Z) (rnd : string) (cfg : AgentConfig)
    (sys : System) : System * string :=
  let instanceId := generateInstanceId now rnd in
  let instance :=
    {| inst_id := instanceId; config := cfg; status := stopped;
       lastUpdate := now; cronJob := None |} in
  (set_instances <[instanceId := instance]> sys, instanceId).

(** What the host does with the two timers that the [try] block of
    [startInstance] asks for: both are set up; [setInterval] throws; or
    [setInterval] returns and [setTimeout] throws. *)
Inductive Timers :=
  | Armed
  | IntervalThrows
  | TimeoutThrows.

(** [startInstance].  When [setInterval] throws, the handler sets the status
    and nothing else.  When [setTimeout] throws, the interval timer is armed
    and the handle, the status and the instant are written already: the
    handler sets the status on top of that. *)
Definition startInstance (now : Z) (timers : Timers) (instanceId : string)
    (sys : System) : System * bool :=
  match instances sys !! instanceId with
  | None => (sys, false)
  | Some instance =>
      if decide (status instance = running) then (sys, true)
      else
        let h := nextHandle sys in
        let instance' :=
          set_lastUpdate now (set_status running (set_cronJob (Some h) instance)) in
        match timers with
        | Armed =>
            ({| instances := <[instanceId := instance']> (instances sys);
                intervals := <[h := instanceId]> (intervals sys);
                timeouts := timeouts sys ++ [instanceId];
                nextHandle := S h;
                rssManager := rssManager sys |}, true)
        | IntervalThrows =>
            (set_instances <[instanceId := set_status error instance]> sys, false)
        | TimeoutThrows =>
            ({| instances := <[instanceId := set_status error instance']> (instances sys);
                intervals := <[h := instanceId]> (intervals sys);
                timeouts := timeouts sys;
                nextHandle := S h;
                rssManager := rssManager sys |}, false)
        end
  end.

Definition stopInstance (now : Z) (instanceId : string) (sys : System)
    : System * bool :=
  match instances sys !! instanceId with
  | None => (sys, false)
  | Some instance =>
      let instance' :=
        set_lastUpdate now (set_status stopped (set_cronJob None instance)) in
      ({| instances := <[instanceId := instance']> (instances sys);
          intervals := match cronJob instance with
                       | Some h => delete h (intervals sys)
                       | None => intervals sys
                       end;
          timeouts := timeouts sys;
          nextHandle := nextHandle sys;
          rssManager := rssManager sys |}, true)
  end.

Definition deleteInstance (now : Z) (instanceId : string) (sys : System)
    : System * bool :=
  match instances sys !! instanceId with
  | None => (sys, false)
  | Some _ =>
      (set_instances (delete instanceId) (stopInstance now instanceId sys).1, true)
  end.

Definition updateInstanceConfig (now : Z) (timers : Timers) (instanceId : string)
    (newConfig : AgentConfig) (sys : System) : System * bool :=
  match instances sys !! instanceId with
  | None => (sys, false)
  | Some instance =>
      let wasRunning := bool_decide (status instance = running) in
      let sys1 := if wasRunning then (stopInstance now instanceId sys).1 else sys in
      let sys2 :=
        set_instances (alter (λ i, set_lastUpdate now (set_config newConfig i))
                             instanceId) sys1 in
      let sys3 := if wasRunning then (startInstance now timers instanceId sys2).1
                  else sys2 in
      (sys3, true)
  end.

(** The source attribution that a cycle computes from what it collected. *)
Definition sourceAttribution (collectedData : list ProcessedContent) : string :=
  let sources := distinct (source <$> collectedData) in
  "Generated from " +:+ pretty (length sources) +:+ " sources: "
  +:+ join ", " (slice0 3 sources)
  +:+ (if 3 <? length sources then "..." else "").

(** What the two collaborators of a cycle do.  Of a value that one of them
    throws, the handler of the cycle reads [error.message], to log it:
    [CollectThrows message] and [ProcessThrows message] stand for a thrown
    value other than [null] and [undefined], an [Error] with that message or
    any value with whatever it has for a message; [CollectThrowsNullish] and
    [ProcessThrowsNullish] for a thrown [null] or [undefined], on which that
    read throws. *)
Inductive Collected :=
  | Collects (collectedData : list ProcessedContent)
  | CollectThrows (message : string)
  | CollectThrowsNullish.

Inductive Processed :=
  | Processes (processedContent : string)
  | ProcessThrows (message : string)
  | ProcessThrowsNullish.

Record CycleWorld := {
  collectAll : AgentConfig → Collected;
  processContent : AgentConfig → list ProcessedContent → Processed;
  cycle_time : Z
}.

Section WithLocale.

Variable toLocaleDateString : Z → string.
Variable toLocaleTimeString : Z → string.

(** The [catch] block of a cycle, for a thrown value whose [message] can be
    read. *)
Definition cycleFailed (now : Z) (instanceId : string) (instance : AgentInstance)
    (sys : System) : System :=
  (stopInstance now instanceId
     (set_instances <[instanceId := set_lastUpdate now (set_status error instance)]> sys)).1.

(** [executeAgentCycle], run without interleaving.  On a thrown [null] or
    [undefined] the handler throws at its first statement, before the status
    is written or the instance stopped, and the cycle ends with nothing
    changed. *)
Definition executeAgentCycle (w : CycleWorld) (instanceId : string)
    (sys : System) : System :=
  match instances sys !! instanceId with
  | None => sys
  | Some instance =>
      if decide (status instance ≠ running) then sys
      else
        match collectAll w (config instance) with
        | CollectThrows _ => cycleFailed (cycle_time w) instanceId instance sys
        | CollectThrowsNullish => sys
        | Collects [] => sys
        | Collects collectedData =>
            match processContent w (config instance) collectedData with
            | ProcessThrows _ => cycleFailed (cycle_time w) instanceId instance sys
            | ProcessThrowsNullish => sys
            | Processes processedContent =>
                {| instances :=
                     <[instanceId := set_lastUpdate (cycle_time w) instance]> (instances sys);
                   intervals := intervals sys;
                   timeouts := timeouts sys;
                   nextHandle := nextHandle sys;
                   rssManager :=
                     RSS.addItem toLocaleDateString toLocaleTimeString
                       (outputFormat (config instance)) processedContent
                       (config instance) (sourceAttribution collectedData)
                       (cycle_time w) (cycle_time w) (rssManager sys) |}
            end
        end
  end.

(** [cleanupOldInstances]; [now] is its [Date.now()], and the instant of the
    [stopInstance] inside each [deleteInstance]. *)
Definition cleanupOldInstances (maxAgeHours now : Z) (sys : System) : System * nat :=
  let cutoffTime := newDate (now - maxAgeHours * 60 * 60 * 1000)%Z in
  foldl (λ '(sys', removedCount) '(instanceId, instance),
           if decide (status instance = stopped ∧
                      earlierThan cutoffTime (lastUpdate instance))
           then ((deleteInstance now instanceId sys').1, S removedCount)
           else (sys', removedCount))
        (sys, 0) (map_to_list (instances sys)).

(** What can happen to the manager. *)
Inductive Op :=
  | CreateInstance (now : Z) (rnd : string) (cfg : AgentConfig)
  | StartInstance (now : Z) (timers : Timers) (instanceId : string)
  | StopInstance (now : Z) (instanceId : string)
  | DeleteInstance (now : Z) (instanceId : string)
  | UpdateInstanceConfig (now : Z) (timers : Timers) (instanceId : string)
      (newConfig : AgentConfig)
  | IntervalFires (h : nat) (w : CycleWorld)
  | TimeoutFires (w : CycleWorld)
  | CleanupOldInstances (maxAgeHours now : Z).

Definition step (op : Op) (sys : System) : System :=
  match op with
  | CreateInstance now rnd cfg => (createInstance now rnd cfg sys).1
  | StartInstance now timers instanceId => (startInstance now timers instanceId sys).1
  | StopInstance now instanceId => (stopInstance now instanceId sys).1
  | DeleteInstance now instanceId => (deleteInstance now instanceId sys).1
  | UpdateInstanceConfig now timers instanceId newConfig =>
      (updateInstanceConfig now timers instanceId newConfig sys).1
  | IntervalFires h w =>
      match intervals sys !! h with
      | Some instanceId => executeAgentCycle w instanceId sys
      | None => sys
      end
  | TimeoutFires w =>
      match timeouts sys with
      | instanceId :: rest =>
          executeAgentCycle w instanceId
            {| instances := instances sys; intervals := intervals sys;
               timeouts := rest; nextHandle := nextHandle sys;
               rssManager := rssManager sys |}
      | [] => sys
      end
  | CleanupOldInstances maxAgeHours now => (cleanupOldInstances maxAgeHours now sys).1
  end.

(** The operations of [ops], first one first. *)
Definition run (ops : list Op) (sys : System) : System :=
  foldl (λ sys' op, step op sys') sys ops.

Definition reachable (sys : System) : Prop := ∃ ops, run ops init = sys.

Definition status_of (instanceId : string) (sys : System) : option Status :=
  status <$> instances sys !! instanceId.

Definition cronJob_of (instanceId : string) (sys : System) : option nat :=
  instances sys !! instanceId ≫= cronJob.

(** *** What an operation on one instance does to another one *)

Lemma stopInstance_other now i j sys :
  i ≠ j → instances (stopInstance now i sys).1 !! j = instances sys !! j.
Proof.
  intros Hne. unfold stopInstance.
  destruct (instances sys !! i); [|done]. cbn. by rewrite lookup_insert_ne.
Qed.

Lemma startInstance_other now timers i j sys :
  i ≠ j → instances (startInstance now timers i sys).1 !! j = instances sys !! j.
Proof.
  intros Hne. unfold startInstance.
  destruct (instances sys !! i); [|done].
  destruct (decide _); [done|].
  destruct timers; cbn; by rewrite lookup_insert_ne.
Qed.

Lemma deleteInstance_other now i j sys :
  i ≠ j → instances (deleteInstance now i sys).1 !! j = instances sys !! j.
Proof.
  intros Hne. unfold deleteInstance.
  destruct (instances sys !! i); [|done]. cbn.
  by rewrite lookup_delete_ne, stopInstance_other.
Qed.

Lemma updateInstanceConfig_other now timers i j cfg sys :
  i ≠ j →
  instances (updateInstanceConfig now timers i cfg sys).1 !! j = instances sys !! j.
Proof.
  intros Hne. unfold updateInstanceConfig.
  destruct (instances sys !! i) as [instance|]; [|done]. cbn [fst].
  destruct (bool_decide (status instance = running)).
  - rewrite startInstance_other by done. cbn.
    by rewrite lookup_alter_ne, stopInstance_other.
  - cbn. by rewrite lookup_alter_ne.
Qed.

Lemma cycleFailed_other now i j instance sys :
  i ≠ j → instances (cycleFailed now i instance sys) !! j = instances sys !! j.
Proof.
  intros Hne. unfold cycleFailed. rewrite stopInstance_other by done.
  cbn. by rewrite lookup_insert_ne.
Qed.

Lemma executeAgentCycle_other w i j sys :
  i ≠ j → instances (executeAgentCycle w i sys) !! j = instances sys !! j.
Proof.
  intros Hne. unfold executeAgentCycle.
  destruct (instances sys !! i) as [instance|]; [|done].
  destruct (decide _); [done|].
  destruct (collectAll w (config instance)) as [[|d data]| |];
    [done | | by apply cycleFailed_other | done].
  destruct (processContent w (config instance) (d :: data));
    [| by apply cycleFailed_other | done].
  cbn. by rewrite lookup_insert_ne.
Qed.

(** The guard at the head of a cycle. *)
Lemma executeAgentCycle_skips w i sys :
  status_of i sys ≠ Some running → executeAgentCycle w i sys = sys.
Proof.
  unfold status_of, executeAgentCycle.
  destruct (instances sys !! i) as [instance|]; [|done]. cbn.
  intros Hst. destruct (decide _) as [|Hrun]; [done|].
  destruct (decide (status instance = running)) as [Heq|]; [|done].
  by rewrite Heq in Hst.
Qed.

Lemma cleanup_fold_keeps now (cutoffTime : option Z) i instance
    (l : list (string * AgentInstance)) sys n :
  (∀ v, (i, v) ∈ l → status v ≠ stopped) →
  instances sys !! i = Some instance →
  instances
    (foldl (λ '(sys', removedCount) '(instanceId, instance),
              if decide (status instance = stopped ∧
                         earlierThan cutoffTime (lastUpdate instance))
              then ((deleteInstance now instanceId sys').1, S removedCount)
              else (sys', removedCount))
           (sys, n) l).1 !! i = Some instance.
Proof.
  revert sys n. induction l as [|[k v] l IH]; intros sys n Hl Hi; [done|].
  cbn [foldl]. destruct (decide _) as [[Hstopped _]|_].
  - apply IH.
    + intros v' Hv'. apply Hl. by right.
    + rewrite deleteInstance_other; [done|].
      intros ->. by apply (Hl v); [left|].
  - apply IH; [|done]. intros v' Hv'. apply Hl. by right.
Qed.

Lemma cleanupOldInstances_keeps maxAgeHours now i instance sys :
  instances sys !! i = Some instance →
  status instance ≠ stopped →
  instances (cleanupOldInstances maxAgeHours now sys).1 !! i = Some instance.
Proof.
  intros Hi Hst. unfold cleanupOldInstances.
  apply cleanup_fold_keeps; [|done].
  intros v Hv%elem_of_map_to_list. by simplify_eq.
Qed.

(** *** What the operations do to the instance they name *)

Lemma stopInstance_spec now i instance sys :
  instances sys !! i = Some instance →
  status_of i (stopInstance now i sys).1 = Some stopped ∧
  cronJob_of i (stopInstance now i sys).1 = None ∧
  (∀ h, cronJob instance = Some h → intervals (stopInstance now i sys).1 !! h = None) ∧
  rssManager (stopInstance now i sys).1 = rssManager sys.
Proof.
  intros Hi. unfold status_of, cronJob_of, stopInstance. rewrite Hi. cbn.
  rewrite lookup_insert_eq. split_and!; [done | done | | done].
  intros h ->. apply lookup_delete_eq.
Qed.

(** A cycle that fails: the handler writes [error] and then stops the
    instance, and stopping writes [stopped]. *)
Lemma cycleFailed_spec now i instance sys :
  instances sys !! i = Some instance →
  status_of i (cycleFailed now i instance sys) = Some stopped ∧
  cronJob_of i (cycleFailed now i instance sys) = None ∧
  (∀ h, cronJob instance = Some h → intervals (cycleFailed now i instance sys) !! h = None) ∧
  rssManager (cycleFailed now i instance sys) = rssManager sys.
Proof.
  intros Hi. unfold cycleFailed.
  pose (sys1 := set_instances <[i := set_lastUpdate now (set_status error instance)]> sys).
  assert (H1 : instances sys1 !! i = Some (set_lastUpdate now (set_status error instance)))
    by apply lookup_insert_eq.
  destruct (stopInstance_spec now i _ sys1 H1) as (Hst & Hcj & Hint & Hrss).
  split_and!; done.
Qed.

(** The collector or the processor throws a value other than [null] and
    [undefined]. *)
Definition throws (w : CycleWorld) (cfg : AgentConfig) : Prop :=
  (∃ message, collectAll w cfg = CollectThrows message) ∨
  (∃ d data message,
     collectAll w cfg = Collects (d :: data) ∧
     processContent w cfg (d :: data) = ProcessThrows message).

(** The collector or the processor throws [null] or [undefined]. *)
Definition throws_nullish (w : CycleWorld) (cfg : AgentConfig) : Prop :=
  collectAll w cfg = CollectThrowsNullish ∨
  (∃ d data,
     collectAll w cfg = Collects (d :: data) ∧
     processContent w cfg (d :: data) = ProcessThrowsNullish).

Lemma executeAgentCycle_throws w i instance sys :
  instances sys !! i = Some instance →
  status instance = running →
  throws w (config instance) →
  status_of i (executeAgentCycle w i sys) = Some stopped ∧
  cronJob_of i (executeAgentCycle w i sys) = None ∧
  (∀ h, cronJob instance = Some h → intervals (executeAgentCycle w i sys) !! h = None) ∧
  rssManager (executeAgentCycle w i sys) = rssManager sys ∧
  (∀ w', executeAgentCycle w' i (executeAgentCycle w i sys) = executeAgentCycle w i sys).
Proof.
  intros Hi Hrun Hthrows.
  assert (Heq : executeAgentCycle w i sys = cycleFailed (cycle_time w) i instance sys).
  { unfold executeAgentCycle. rewrite Hi.
    destruct (decide _) as [Hne|_]; [done|].
    destruct Hthrows as [[m ->] | (d & data & m & -> & ->)]; done. }
  rewrite Heq.
  destruct (cycleFailed_spec (cycle_time w) i instance sys Hi) as (Hst & Hcj & Hint & Hrss).
  split_and!; try done.
  intros w'. apply executeAgentCycle_skips. by rewrite Hst.
Qed.

(** *** The source attribution of a cycle *)

(** C9 (amended).  A cycle that collects something and whose processor
    returns puts one item in front of the feed of the configured format.
    Its source attribution gives the number of distinct sources of what was
    collected, names the first three of them (in the order in which they
    first occur) separated by commas, and ends in "..." exactly when there
    are more than three. *)
Theorem cycle_source_attribution (w : CycleWorld) (i : string)
    (instance : AgentInstance) (sys : System)
    (d : ProcessedContent) (data : list ProcessedContent) (text : string) :
  instances sys !! i = Some instance →
  status instance = running →
  collectAll w (config instance) = Collects (d :: data) →
  processContent w (config instance) (d :: data) = Processes text →
  let sources := distinct (source <$> d :: data) in
  (∃ item,
     head (RSS.items_of (outputFormat (config instance))
             (rssManager (executeAgentCycle w i sys))) = Some item ∧
     RSS.content item = text ∧
     RSS.sourceAttribution item
     = "Generated from " +:+ pretty (length sources) +:+ " sources: "
       +:+ join ", " (take 3 sources)
       +:+ (if decide (3 < length sources) then "..." else "")) ∧
  NoDup sources ∧
  (∀ x, x ∈ sources ↔ ∃ c, c ∈ d :: data ∧ source c = x) ∧
  sources `sublist_of` (source <$> d :: data).
Proof.
  intros Hi Hrun Hcollect Hprocess sources.
  destruct (distinct_spec (source <$> d :: data)) as (Hnd & Hmem & Hsub).
  split_and!; [| done | | done].
  - unfold executeAgentCycle. rewrite Hi.
    destruct (decide _) as [Hne|_]; [done|].
    rewrite Hcollect, Hprocess. cbn [rssManager].
    pose (a := {| RSS.ap_format := outputFormat (config instance);
                  RSS.ap_content := text;
                  RSS.ap_config := config instance;
                  RSS.ap_attribution := sourceAttribution (d :: data);
                  RSS.ap_now := cycle_time w;
                  RSS.ap_now' := cycle_time w |}).
    pose proof (RSS.items_of_append_same toLocaleDateString toLocaleTimeString
                  a (rssManager sys)) as Happ.
    unfold RSS.append in Happ. cbn [a RSS.ap_format RSS.ap_content RSS.ap_config
      RSS.ap_attribution RSS.ap_now RSS.ap_now'] in Happ.
    rewrite Happ. eexists. split; [reflexivity|]. split; [reflexivity|].
    cbn [RSS.sourceAttribution RSS.item_of RSS.newItem a RSS.ap_attribution].
    unfold sourceAttribution. fold sources.
    rewrite slice0_nonneg by done.
    destruct (3 <? length sources) eqn:E, (decide (3 < length sources)); try done.
    + apply Nat.ltb_lt in E. lia.
    + apply Nat.ltb_ge in E. lia.
  - intros x. fold sources in Hmem. rewrite Hmem, list_elem_of_fmap.
    split; intros (c & ? & ?); exists c; done.
Qed.

(** *** The [error] status *)

(** The operations that name an instance and may change its status. *)
Definition acts_on (i : string) (op : Op) : Prop :=
  match op with
  | CreateInstance now rnd _ => generateInstanceId now rnd = i
  | StartInstance _ _ j | StopInstance _ j | DeleteInstance _ j => j = i
  | _ => False
  end.

Lemma status_of_same i sys sys' :
  instances sys' !! i = instances sys !! i → status_of i sys' = status_of i sys.
Proof. unfold status_of. by intros ->. Qed.

Lemma updateInstanceConfig_error now timers i cfg sys :
  status_of i sys = Some error →
  status_of i (updateInstanceConfig now timers i cfg sys).1 = Some error.
Proof.
  unfold status_of, updateInstanceConfig.
  destruct (instances sys !! i) as [instance|] eqn:Hi; [|done].
  cbn. intros [= Hst]. rewrite Hst.
  rewrite bool_decide_eq_false_2 by done. cbn.
  by rewrite lookup_alter_eq, Hi; cbn; rewrite Hst.
Qed.

(** C5 (amended).  An instance in status [error] keeps that status under a
    configuration update, under a cycle that begins while it is in [error]
    (the guard skips it), under cleanup and under every operation on another
    instance.  The status is not
    final: [stopInstance] makes it [stopped], [startInstance] makes it
    [running] when the timers are set up (and leaves [error] when one of
    them fails), [deleteInstance] removes the instance. *)
Theorem error_left_by_stop_start_delete (i : string) (sys : System) :
  status_of i sys = Some error →
  (∀ now, status_of i (stopInstance now i sys).1 = Some stopped) ∧
  (∀ now, status_of i (startInstance now Armed i sys).1 = Some running) ∧
  (∀ now, status_of i (startInstance now IntervalThrows i sys).1 = Some error) ∧
  (∀ now, status_of i (startInstance now TimeoutThrows i sys).1 = Some error) ∧
  (∀ now, status_of i (deleteInstance now i sys).1 = None) ∧
  (∀ op, ¬ acts_on i op → status_of i (step op sys) = Some error).
Proof.
  intros Herr.
  assert (∃ instance, instances sys !! i = Some instance ∧ status instance = error)
    as (instance & Hi & Hst).
  { unfold status_of in Herr. destruct (instances sys !! i) as [instance|]; [|done].
    exists instance. split; [done|]. by injection Herr. }
  split_and!.
  - intros now. by destruct (stopInstance_spec now i instance sys Hi).
  - intros now. unfold status_of, startInstance. rewrite Hi, Hst.
    rewrite decide_False by done. cbn. by rewrite lookup_insert_eq.
  - intros now. unfold status_of, startInstance. rewrite Hi, Hst.
    rewrite decide_False by done. cbn. by rewrite lookup_insert_eq.
  - intros now. unfold status_of, startInstance. rewrite Hi, Hst.
    rewrite decide_False by done. cbn. by rewrite lookup_insert_eq.
  - intros now. unfold status_of, deleteInstance. rewrite Hi.
    cbn. by rewrite lookup_delete_eq.
  - intros op Hop. destruct op as [now rnd cfg | now timers j | now j | now j
      | now timers j cfg | h w | w | maxAgeHours now]; cbn [step acts_on] in *.
    + rewrite <- Herr. apply status_of_same. cbn. by rewrite lookup_insert_ne.
    + rewrite <- Herr. by apply status_of_same, startInstance_other.
    + rewrite <- Herr. by apply status_of_same, stopInstance_other.
    + rewrite <- Herr. by apply status_of_same, deleteInstance_other.
    + destruct (decide (j = i)) as [->|Hne].
      * by apply updateInstanceConfig_error.
      * rewrite <- Herr. by apply status_of_same, updateInstanceConfig_other.
    + destruct (intervals sys !! h) as [j|]; [|done].
      destruct (decide (j = i)) as [->|Hne].
      * rewrite executeAgentCycle_skips; [done | by rewrite Herr].
      * rewrite <- Herr. by apply status_of_same, executeAgentCycle_other.
    + destruct (timeouts sys) as [|j rest]; [done|].
      destruct (decide (j = i)) as [->|Hne].
      * rewrite executeAgentCycle_skips; [done|].
        unfold status_of in *. cbn. by rewrite Herr.
      * rewrite <- Herr. unfold status_of.
        by rewrite executeAgentCycle_other.
    + unfold status_of.
      rewrite (cleanupOldInstances_keeps maxAgeHours now i instance sys Hi); cbn;
        [by rewrite Hst | by rewrite Hst].
Qed.

End WithLocale.

(** *** Worked examples *)

Definition idA : string := generateInstanceId 1000 "k3j9x2m1q".

Definition collected (src : string) : ProcessedContent :=
  {| pc_id := "1000-a1b2c3d4e"; source := src; timestamp := 900;
     rawContent := "AI-powered expense categorization";
     processedContent := "AI-powered expense categorization" |}.

Definition fourSources : list ProcessedContent :=
  [collected "Twitter"; collected "YouTube"; collected "Twitter";
   collected "Reddit: r/accounting"; collected "Web: https://fintech-news.com"].

(** The processor throws, as it does when the client has exhausted its
    retries. *)
Definition failingWorld : CycleWorld :=
  {| collectAll := λ _, Collects fourSources;
     processContent := λ _ _, ProcessThrows "All models exhausted after maximum retries";
     cycle_time := 3000 |}.

Definition succeedingWorld : CycleWorld :=
  {| collectAll := λ _, Collects fourSources;
     processContent := λ _ _, Processes "Insights on accounting";
     cycle_time := 3000 |}.

(** An instance created and started. *)
Definition startedSystem : System :=
  run RSS.isoDate RSS.isoTime
    [CreateInstance 1000 "k3j9x2m1q" sampleConfig; StartInstance 2000 Armed idA] init.

(** An instance created, whose start failed to arm the timer. *)
Definition erroredSystem : System :=
  run RSS.isoDate RSS.isoTime
    [CreateInstance 1000 "k3j9x2m1q" sampleConfig; StartInstance 2000 IntervalThrows idA]
    init.

Example startedSystem_state :
  idA = "agent-1000-k3j9x2m1q" ∧
  status_of idA startedSystem = Some running ∧
  cronJob_of idA startedSystem = Some 1 ∧
  intervals startedSystem !! 1 = Some idA ∧
  timeouts startedSystem = [idA].
Proof. vm_compute. done. Qed.

(** The system after the first cycle of the started instance, run with a
    processor that throws. *)
Definition failedSystem : System :=
  step RSS.isoDate RSS.isoTime (TimeoutFires failingWorld) startedSystem.

(** C1.  The first cycle of a started instance, with a processor that
    throws: afterwards the timer is cleared and a later cycle is skipped,
    but the status of the instance is [stopped], not [error]. *)
Theorem processor_throws_leaves_stopped :
  status_of idA startedSystem = Some running ∧
  status_of idA failedSystem = Some stopped ∧
  status_of idA failedSystem ≠ Some error ∧
  cronJob_of idA failedSystem = None ∧
  intervals failedSystem !! 1 = None ∧
  executeAgentCycle RSS.isoDate RSS.isoTime succeedingWorld idA failedSystem
  = failedSystem.
Proof.
  split_and!; [by vm_compute .. |].
  apply executeAgentCycle_skips. by vm_compute.
Qed.

(** The same through the timer. *)
Example interval_cycle_throws_leaves_stopped :
  status_of idA (step RSS.isoDate RSS.isoTime (IntervalFires 1 failingWorld) startedSystem)
  = Some stopped.
Proof. vm_compute. done. Qed.

(** C5, as stated, fails: an instance in [error] is stopped by
    [stopInstance] and runs again after [startInstance]. *)
Lemma error_instance_stopped_and_restarted :
  reachable RSS.isoDate RSS.isoTime erroredSystem ∧
  status_of idA erroredSystem = Some error ∧
  status_of idA (stopInstance 3000 idA erroredSystem).1 = Some stopped ∧
  status_of idA (startInstance 3000 Armed idA erroredSystem).1 = Some running.
Proof.
  split.
  - by exists [CreateInstance 1000 "k3j9x2m1q" sampleConfig;
               StartInstance 2000 IntervalThrows idA].
  - vm_compute. done.
Qed.

(** The instance of [erroredSystem]. *)
Lemma error_left_by_stop_start_delete_witness :
  status_of idA erroredSystem = Some error ∧
  (∀ now, status_of idA (stopInstance now idA erroredSystem).1 = Some stopped) ∧
  (∀ now, status_of idA (startInstance now Armed idA erroredSystem).1 = Some running) ∧
  (∀ now, status_of idA (startInstance now IntervalThrows idA erroredSystem).1
          = Some error) ∧
  (∀ now, status_of idA (startInstance now TimeoutThrows idA erroredSystem).1
          = Some error) ∧
  (∀ now, status_of idA (deleteInstance now idA erroredSystem).1 = None) ∧
  (∀ op, ¬ acts_on idA op →
     status_of idA (step RSS.isoDate RSS.isoTime op erroredSystem) = Some error).
Proof.
  assert (H : status_of idA erroredSystem = Some error) by (vm_compute; reflexivity).
  split; [exact H|].
  exact (error_left_by_stop_start_delete RSS.isoDate RSS.isoTime idA erroredSystem H).
Defined.

(** C9, as stated, fails: with four distinct sources the attribution of the
    item that a cycle publishes ends in "...", and nowhere says "+1 more". *)
Lemma sourceAttribution_has_no_plus_more :
  length (distinct (source <$> fourSources)) = 4 ∧
  (RSS.sourceAttribution <$>
     head (RSS.items_of "normal"
             (rssManager (step RSS.isoDate RSS.isoTime (TimeoutFires succeedingWorld)
                               startedSystem))))
  = Some "Generated from 4 sources: Twitter, YouTube, Reddit: r/accounting..." ∧
  includes "+1 more"
    "Generated from 4 sources: Twitter, YouTube, Reddit: r/accounting..." = false ∧
  includes "more"
    "Generated from 4 sources: Twitter, YouTube, Reddit: r/accounting..." = false.
Proof. vm_compute. done. Qed.

Definition startedInstance : AgentInstance :=
  {| inst_id := idA; config := sampleConfig; status := running;
     lastUpdate := 2000; cronJob := Some 1 |}.

(** A cycle of the started instance that collects [fourSources]. *)
Lemma cycle_source_attribution_witness :
  let sources := distinct (source <$> fourSources) in
  (∃ item,
     head (RSS.items_of (outputFormat (config startedInstance))
             (rssManager (executeAgentCycle RSS.isoDate RSS.isoTime
                            succeedingWorld idA startedSystem))) = Some item ∧
     RSS.content item = "Insights on accounting" ∧
     RSS.sourceAttribution item
     = "Generated from " +:+ pretty (length sources) +:+ " sources: "
       +:+ join ", " (take 3 sources)
       +:+ (if decide (3 < length sources) then "..." else "")) ∧
  NoDup sources ∧
  (∀ x, x ∈ sources ↔ ∃ c, c ∈ fourSources ∧ source c = x) ∧
  sources `sublist_of` (source <$> fourSources).
Proof.
  apply (cycle_source_attribution RSS.isoDate RSS.isoTime succeedingWorld idA
           startedInstance startedSystem
           (collected "Twitter")
           [collected "YouTube"; collected "Twitter";
            collected "Reddit: r/accounting"; collected "Web: https://fintech-news.com"]
           "Insights on accounting").
  - vm_compute. reflexivity.
  - reflexivity.
  - reflexivity.
  - reflexivity.
Defined.

End InstanceManager.

Lemma elem_of_slice0 {A} (n : Z) (l : list A) (x : A) : x ∈ slice0 n l → x ∈ l.
Proof.
  unfold slice0. destruct (n <? 0)%Z;
    intros (i & Hi & _)%elem_of_take; by eapply list_elem_of_lookup_2.
Qed.

(** ** The stable sort and [filter] *)

Section SortFilter.
Context {A : Type} (cmp : A → A → Z) (key : A → Z).
Hypothesis cmp_key : ∀ a b, cmp a b = (key b - key a)%Z.
Context (P : A → Prop) `{!∀ x, Decision (P x)}.

Lemma sort_insert_front x l :
  Forall (λ a, (key a ≤ key x)%Z) l → sort_insert cmp x l = x :: l.
Proof.
  destruct l as [|y ys]; [done|]. intros [Hy _]%Forall_cons. cbn.
  rewrite cmp_key. destruct (key y - key x <=? 0)%Z eqn:E; [done|].
  apply Z.leb_gt in E. lia.
Qed.

Lemma sort_insert_filter x l :
  StronglySorted (λ a b, (key b ≤ key a)%Z) l →
  filter P (sort_insert cmp x l)
  = if decide (P x) then sort_insert cmp x (filter P l) else filter P l.
Proof.
  induction 1 as [|y ys Hys IH Hall]; cbn [sort_insert].
  - rewrite filter_cons, filter_nil. by destruct (decide (P x)).
  - destruct (cmp x y <=? 0)%Z eqn:E.
    + rewrite (filter_cons _ x). destruct (decide (P x)); [|done].
      symmetry. apply sort_insert_front.
      apply Z.leb_le in E. rewrite cmp_key in E.
      apply Forall_forall. intros z [_ Hz]%list_elem_of_filter.
      apply elem_of_cons in Hz as [->|Hz]; [lia|].
      rewrite Forall_forall in Hall. specialize (Hall z Hz). simpl in Hall. lia.
    + rewrite (filter_cons _ y), IH, (filter_cons _ y).
      destruct (decide (P x)), (decide (P y)); try done.
      cbn [sort_insert]. by rewrite E.
Qed.

(** Filtering the sorted array is sorting the filtered array. *)
Lemma sort_filter l : filter P (sort cmp l) = sort cmp (filter P l).
Proof.
  induction l as [|x xs IH]; [done|]. cbn [sort].
  rewrite sort_insert_filter by (by apply sort_sorted).
  rewrite filter_cons, IH. by destruct (decide (P x)).
Qed.

End SortFilter.

(** ** More of the feed store: formats, statistics, retention *)

Module RSSExtra.
Import RSS.

(** [getFeed] *)
Definition getFeed (format : string) (feeds : Feeds) : option RSSFeed :=
  get format feeds.

(** [getAllFormats]: the keys of the map, in insertion order. *)
Definition getAllFormats (feeds : Feeds) : list string := fst <$> feeds.

(** [getFeedStats]: for each format, [itemCount] and [lastUpdated]. *)
Definition getFeedStats (feeds : Feeds) : gmap string (nat * Z) :=
  foldl (λ stats '(format, feed),
           <[format := (length (items feed), lastUpdated (channel feed))]> stats)
        ∅ feeds.

Lemma getAllFormats_put k v m : getAllFormats (put k v m) = getAllFormats m.
Proof.
  unfold getAllFormats. induction m as [|[k' v'] m IH]; [done|].
  cbn [put]. destruct (decide (k = k')); [done|]. cbn. by rewrite IH.
Qed.

Lemma get_None_iff k m : get k m = None ↔ k ∉ getAllFormats m.
Proof.
  unfold getAllFormats. induction m as [|[k' v'] m IH]; cbn.
  - split; [intros _; apply not_elem_of_nil | done].
  - rewrite not_elem_of_cons. destruct (decide (k = k')) as [->|Hne].
    + split; [done | by intros [? _]].
    + rewrite IH. tauto.
Qed.

Lemma get_Some_elem_of k v m : get k m = Some v → (k, v) ∈ m.
Proof.
  induction m as [|[k' v'] m IH]; cbn; [done|].
  destruct (decide (k = k')) as [->|Hne].
  - intros [= ->]. left.
  - intros H. right. by apply IH.
Qed.

Lemma elem_of_get k v m : NoDup (getAllFormats m) → (k, v) ∈ m → get k m = Some v.
Proof.
  unfold getAllFormats. induction m as [|[k' v'] m IH]; cbn; [by intros _ ?%elem_of_nil|].
  intros [Hnotin Hnd]%NoDup_cons [[= -> ->]|Hin]%elem_of_cons.
  - by rewrite decide_True.
  - rewrite decide_False; [by apply IH|].
    intros ->. apply Hnotin. by apply (list_elem_of_fmap_2 fst _ (k', v)).
Qed.



Section WithLocale.

Variable toLocaleDateString : Z → string.
Variable toLocaleTimeString : Z → string.

Local Abbreviation append := (append toLocaleDateString toLocaleTimeString).
Local Abbreviation appends := (appends toLocaleDateString toLocaleTimeString).
Local Abbreviation item_of := (item_of toLocaleDateString toLocaleTimeString).

(** The feed that [addItem] leaves under the format it was called for. *)
Definition appended (a : Append) (old : option RSSFeed) : RSSFeed :=
  match old with
  | Some existingFeed =>
      {| channel :=
           {| channel_title := channel_title (channel existingFeed);
              channel_description := channel_description (channel existingFeed);
              channel_category := channel_category (channel existingFeed);
              lastUpdated := ap_now' a;
              generator := generator (channel existingFeed);
              channel_link := channel_link (channel existingFeed) |};
         items := take (Z.to_nat maxItemsPerFeed) (item_of a :: items existingFeed) |}
  | None =>
      createFeedForFormat toLocaleDateString toLocaleTimeString
        (ap_format a) (ap_content a) (ap_config a) (ap_attribution a) (ap_now a)
  end.

Lemma get_append_same (a : Append) (fs : Feeds) :
  get (ap_format a) (append a fs) = Some (appended a (get (ap_format a) fs)).
Proof.
  unfold RSS.append, addItem, appended.
  destruct (get (ap_format a) fs) as [ex|] eqn:Hget.
  - rewrite get_put_eq, Hget. cbn [items createFeedForFormat app].
    by rewrite limit_take.
  - by rewrite get_snoc_eq.
Qed.

Lemma get_append_other (a : Append) (fs : Feeds) (c : string) :
  ap_format a ≠ c → get c (append a fs) = get c fs.
Proof.
  intros Hne. unfold RSS.append, addItem.
  destruct (get (ap_format a) fs) as [ex|] eqn:Hget.
  - by rewrite get_put_ne.
  - by rewrite get_snoc_ne.
Qed.

Lemma getAllFormats_append (a : Append) (fs : Feeds) :
  getAllFormats (append a fs)
  = if decide (ap_format a ∈ getAllFormats fs) then getAllFormats fs
    else getAllFormats fs ++ [ap_format a].
Proof.
  unfold RSS.append, addItem.
  destruct (get (ap_format a) fs) as [ex|] eqn:Hget.
  - rewrite getAllFormats_put, decide_True; [done|].
    destruct (decide (ap_format a ∈ getAllFormats fs)) as [|Hn]; [done|].
    apply get_None_iff in Hn. congruence.
  - apply get_None_iff in Hget. rewrite decide_False by done.
    unfold getAllFormats. by rewrite fmap_app.
Qed.

Lemma getAllFormats_appends_from (calls : list Append) (fs : Feeds) :
  getAllFormats (appends calls fs)
  = foldl (λ acc x, if decide (x ∈ acc) then acc else acc ++ [x])
          (getAllFormats fs) (ap_format <$> calls).
Proof.
  revert fs. induction calls as [|a calls IH]; intros fs; [done|].
  cbn [RSS.appends foldl fmap list_fmap].
  change (foldl (λ fs0 a0, append a0 fs0) (append a fs) calls)
    with (appends calls (append a fs)).
  by rewrite IH, getAllFormats_append.
Qed.

(** X1.  A store filled by [addItem] lists every format once, in the order
    in which the formats were first used, and [getFeed] answers for a format
    exactly when something was added under it. *)
Theorem formats_in_order_of_first_use (calls : list Append) :
  getAllFormats (appends calls []) = distinct (ap_format <$> calls) ∧
  NoDup (getAllFormats (appends calls [])) ∧
  (∀ c, getFeed c (appends calls []) = None ↔ c ∉ ap_format <$> calls).
Proof.
  assert (Heq : getAllFormats (appends calls []) = distinct (ap_format <$> calls))
    by apply getAllFormats_appends_from.
  destruct (distinct_spec (ap_format <$> calls)) as (Hnd & Hmem & _).
  split_and!; [done | by rewrite Heq |].
  intros c. unfold getFeed. by rewrite get_None_iff, Heq, Hmem.
Qed.

(** X2.  [addItem] for one format leaves the feed of every other format as
    it was, items and channel alike. *)
Theorem addItem_leaves_other_feeds (a : Append) (fs : Feeds) (c : string) :
  ap_format a ≠ c →
  getFeed c (append a fs) = getFeed c fs ∧
  getAllFormats fs `prefix_of` getAllFormats (append a fs).
Proof.
  intros Hne. split; [by apply get_append_other|].
  rewrite getAllFormats_append. destruct (decide _); [done|].
  by eexists.
Qed.


(** *** The clock and [lastUpdated] *)

(** The clock does not run backwards over a sequence of calls that starts
    at or after [t]. *)
Fixpoint clock_ok (t : Z) (calls : list Append) : Prop :=
  match calls with
  | [] => True
  | a :: rest =>
      (t ≤ ap_now a)%Z ∧ (ap_now a ≤ ap_now' a)%Z ∧ clock_ok (ap_now' a) rest
  end.

Definition dated_by (t : Z) (fs : Feeds) : Prop :=
  ∀ c feed, get c fs = Some feed →
    (lastUpdated (channel feed) ≤ t)%Z ∧
    Forall (λ item, (pubDate item ≤ lastUpdated (channel feed))%Z) (items feed).

Lemma append_dated_by (t : Z) (a : Append) (fs : Feeds) :
  dated_by t fs → (t ≤ ap_now a)%Z → (ap_now a ≤ ap_now' a)%Z →
  dated_by (ap_now' a) (append a fs).
Proof.
  intros Hfs Ht Ha c feed. destruct (decide (ap_format a = c)) as [<-|Hne].
  - rewrite get_append_same. intros [= <-]. unfold appended.
    destruct (get (ap_format a) fs) as [ex|] eqn:Hget; cbn.
    + destruct (Hfs _ _ Hget) as [Hlast Hitems]. split; [lia|].
      apply Forall_take. constructor; [done|].
      eapply Forall_impl; [exact Hitems|]. simpl. intros; lia.
    + split; [lia|]. by repeat constructor.
  - rewrite get_append_other by done. intros Hget.
    destruct (Hfs _ _ Hget) as [Hlast Hitems]. split; [lia | done].
Qed.

Lemma appends_dated_by (calls : list Append) (t : Z) (fs : Feeds) :
  dated_by t fs → clock_ok t calls → ∃ t', dated_by t' (appends calls fs).
Proof.
  revert t fs. induction calls as [|a calls IH]; intros t fs Hfs Hclock.
  - by exists t.
  - destruct Hclock as (Ht & Ha & Hrest).
    apply (IH (ap_now' a) (append a fs)); [by eapply append_dated_by | done].
Qed.

(** X4.  When the clock does not run backwards, no item of a feed is
    published later than the feed's [lastUpdated]. *)
Theorem pubDate_le_lastUpdated (t : Z) (calls : list Append) (c : string)
    (feed : RSSFeed) :
  clock_ok t calls →
  getFeed c (appends calls []) = Some feed →
  Forall (λ item, (pubDate item ≤ lastUpdated (channel feed))%Z) (items feed).
Proof.
  intros Hclock Hget.
  destruct (appends_dated_by calls t []) as [t' Hdated]; [done | done |].
  by destruct (Hdated c feed Hget).
Qed.

(** *** Where an item lives *)

(** X5.  In a store filled by [addItem] every item sits in the feed of its
    own category: what [getLatestItems] pairs with a format is an item of
    that format's feed, was built by a call for that format, and carries
    the format as its category and in its link. *)
Theorem getLatestItems_entries_belong (calls : list Append) (limit : Z)
    (format : string) (item : RSSItem) :
  (format, item) ∈ getLatestItems limit (appends calls []) →
  item ∈ items_of format (appends calls []) ∧
  category item = format ∧
  link item = baseUrl +:+ "/rss/" +:+ format ∧
  ∃ a, a ∈ calls ∧ ap_format a = format ∧ item = item_of a.
Proof.
  intros Hin.
  assert (Hall : (format, item) ∈ allItems (appends calls [])).
  { unfold getLatestItems in Hin. apply elem_of_slice0 in Hin.
    by rewrite (sort_perm byPubDateDesc (allItems (appends calls []))) in Hin. }
  apply elem_of_allItems in Hall as (feed & Hfeed & Hitem).
  destruct (formats_in_order_of_first_use calls) as (_ & Hnd & _).
  apply elem_of_get in Hfeed; [|done].
  assert (Hof : item ∈ items_of format (appends calls []))
    by (unfold items_of; by rewrite Hfeed).
  split; [done|].
  destruct (elem_of_items_of_appends _ _ _ _ _ Hof) as (a & Ha & Hf & ->).
  split_and!; [by rewrite <- Hf | by rewrite <- Hf | by exists a].
Qed.

End WithLocale.

(** *** Retention and reading *)

Lemma getAllFormats_clearOldItems h now fs :
  getAllFormats (clearOldItems h now fs) = getAllFormats fs.
Proof.
  unfold getAllFormats, clearOldItems. rewrite <- list_fmap_compose.
  apply list_fmap_ext. by intros _ [k v] _.
Qed.

(** X6.  [clearOldItems] never drops a format: the formats, their order and
    every channel (with its [lastUpdated]) stay as they were, also for a
    feed that is emptied; no feed gains an item. *)
Theorem clearOldItems_keeps_formats (h now : Z) (fs : Feeds) :
  getAllFormats (clearOldItems h now fs) = getAllFormats fs ∧
  (∀ c, channel <$> getFeed c (clearOldItems h now fs) = channel <$> getFeed c fs) ∧
  (∀ c, length (items_of c (clearOldItems h now fs)) ≤ length (items_of c fs)).
Proof.
  split_and!.
  - apply getAllFormats_clearOldItems.
  - intros c. unfold getFeed. rewrite get_clearOldItems.
    by destruct (get c fs).
  - intros c. unfold items_of. rewrite get_clearOldItems.
    destruct (get c fs) as [feed|]; [|done]. cbn. apply length_filter.
Qed.

Lemma allItems_clearOldItems h now fs :
  allItems (clearOldItems h now fs)
  = filter (λ e, laterThan (cutoffTime h now) (pubDate e.2)) (allItems fs).
Proof.
  unfold allItems, clearOldItems.
  induction fs as [|[k feed] fs IH]; [done|].
  cbn [fmap list_fmap mbind list_bind]. rewrite filter_app, <- IH. f_equal.
  cbn [items]. generalize (items feed) as l.
  induction l as [|x l IHl]; [done|].
  cbn [fmap list_fmap]. rewrite !filter_cons. cbn [snd].
  destruct (decide (laterThan (cutoffTime h now) (pubDate x))); cbn; by rewrite IHl.
Qed.

(** X7.  Reading after a purge is purging what would have been read.  When
    [now − h] hours is a time that a [Date] can hold, the latest items of a
    purged store are the sorted merge of the store it was purged from,
    without the entries at or before the cutoff, cut to the limit, so nothing
    at or before the cutoff is ever listed.  When it is not, the purge has
    emptied every feed and nothing is listed at all. *)
Theorem getLatestItems_after_clearOldItems (limit h now : Z) (fs : Feeds) :
  ((-8640000000000000 ≤ now - h * 60 * 60 * 1000 ≤ 8640000000000000)%Z →
     getLatestItems limit (clearOldItems h now fs)
     = slice0 limit (filter (λ e, (now - h * 60 * 60 * 1000 < pubDate e.2)%Z)
                            (sort byPubDateDesc (allItems fs))) ∧
     (∀ e, e ∈ getLatestItems limit (clearOldItems h now fs) →
           (now - h * 60 * 60 * 1000 < pubDate e.2)%Z)) ∧
  (¬ (-8640000000000000 ≤ now - h * 60 * 60 * 1000 ≤ 8640000000000000)%Z →
     getLatestItems limit (clearOldItems h now fs) = [] ∧
     totalItems (clearOldItems h now fs) = 0).
Proof.
  assert (Heq : getLatestItems limit (clearOldItems h now fs)
    = slice0 limit (filter (λ e, laterThan (cutoffTime h now) (pubDate e.2))
                           (sort byPubDateDesc (allItems fs)))).
  { unfold getLatestItems. rewrite allItems_clearOldItems.
    by rewrite (sort_filter byPubDateDesc (λ e, pubDate e.2)). }
  split.
  - intros Hvalid. unfold cutoffTime in Heq. rewrite newDate_valid in Heq by done.
    split; [exact Heq|].
    intros e He. rewrite Heq in He. apply elem_of_slice0 in He.
    by apply list_elem_of_filter in He as [He _].
  - intros Hinvalid.
    assert (Hnone : allItems (clearOldItems h now fs) = []).
    { rewrite allItems_clearOldItems. unfold cutoffTime.
      rewrite newDate_invalid by done. clear Heq.
      induction (allItems fs) as [|x l IH]; [done|].
      rewrite filter_cons_False; [exact IH | by intros []]. }
    split.
    + unfold getLatestItems. rewrite Hnone. cbn. unfold slice0.
      destruct (limit <? 0)%Z; apply take_nil.
    + by rewrite <- length_allItems, Hnone.
Qed.


(** *** The sample store *)

Definition sampleCalls : list Append :=
  [call "normal" "a" 1000; call "quote" "b" 2000; call "normal" "c" 2000;
   call "normal" "d" 3000].

Example sampleStore_formats : getAllFormats sampleStore = ["normal"; "quote"].
Proof. reflexivity. Qed.

Example sampleStore_stats :
  getFeedStats sampleStore = {[ "normal" := (3, 3000%Z); "quote" := (1, 2000%Z) ]}.
Proof. vm_compute. reflexivity. Qed.

Lemma addItem_leaves_other_feeds_witness :
  "normal" ≠ "quote" ∧
  getFeed "quote" (append isoDate isoTime (call "normal" "e" 4000) sampleStore)
  = getFeed "quote" sampleStore ∧
  getAllFormats sampleStore
    `prefix_of` getAllFormats (append isoDate isoTime (call "normal" "e" 4000) sampleStore).
Proof.
  split; [done|].
  apply (addItem_leaves_other_feeds isoDate isoTime (call "normal" "e" 4000)
           sampleStore "quote"). done.
Defined.

Lemma pubDate_le_lastUpdated_witness :
  ∃ feed,
    clock_ok 0 sampleCalls ∧
    getFeed "normal" (appends isoDate isoTime sampleCalls []) = Some feed ∧
    Forall (λ item, (pubDate item ≤ lastUpdated (channel feed))%Z) (items feed).
Proof.
  eexists. split; [cbn; lia|]. split; [vm_compute; reflexivity|].
  eapply (pubDate_le_lastUpdated isoDate isoTime 0 sampleCalls "normal").
  - cbn. lia.
  - vm_compute. reflexivity.
Defined.

Lemma getLatestItems_entries_belong_witness :
  let item := item_of isoDate isoTime (call "normal" "d" 3000) in
  ("normal", item) ∈ getLatestItems 3 (appends isoDate isoTime sampleCalls []) ∧
  item ∈ items_of "normal" (appends isoDate isoTime sampleCalls []) ∧
  category item = "normal" ∧
  link item = baseUrl +:+ "/rss/" +:+ "normal" ∧
  ∃ a, a ∈ sampleCalls ∧ ap_format a = "normal" ∧ item = item_of isoDate isoTime a.
Proof.
  intros item.
  assert (H : ("normal", item) ∈ getLatestItems 3 (appends isoDate isoTime sampleCalls []))
    by (vm_compute; constructor).
  split; [exact H|].
  exact (getLatestItems_entries_belong isoDate isoTime sampleCalls 3 "normal" item H).
Defined.

Lemma getLatestItems_after_clearOldItems_witness :
  (-8640000000000000 ≤ 3602000 - 1 * 60 * 60 * 1000 ≤ 8640000000000000)%Z ∧
  (λ e, (e.1, content e.2)) <$> getLatestItems 10 (clearOldItems 1 3602000 sampleStore)
  = [("normal", "d")] ∧
  ¬ (-8640000000000000 ≤ 5000 - 3000000000 * 60 * 60 * 1000 ≤ 8640000000000000)%Z ∧
  getLatestItems 10 (clearOldItems 3000000000 5000 sampleStore) = [].
Proof.
  destruct (getLatestItems_after_clearOldItems 10 1 3602000 sampleStore) as (Hvalid & _).
  destruct (getLatestItems_after_clearOldItems 10 3000000000 5000 sampleStore)
    as (_ & Hinvalid).
  assert (H1 : (-8640000000000000 ≤ 3602000 - 1 * 60 * 60 * 1000 ≤ 8640000000000000)%Z)
    by lia.
  assert (H2 : ¬ (-8640000000000000 ≤ 5000 - 3000000000 * 60 * 60 * 1000
                  ≤ 8640000000000000)%Z) by lia.
  split; [exact H1|]. split.
  - destruct (Hvalid H1) as [Heq _]. rewrite Heq. reflexivity.
  - split; [exact H2 | exact (proj1 (Hinvalid H2))].
Defined.


End RSSExtra.

(** ** Escaping text for the feed document  (RSSGenerator.generateXML) *)

From Stdlib Require Import Ascii.

Module XML.

(** [str.replace(/c/g, by)] for one character [c]. *)
Fixpoint replaceAll (c : Ascii.ascii) (by_ : string) (str : string) : string :=
  match str with
  | EmptyString => EmptyString
  | String a rest =>
      if decide (a = c) then by_ +:+ replaceAll c by_ rest
      else String a (replaceAll c by_ rest)
  end.

(** The double quote. *)
Definition dquote : Ascii.ascii := Ascii.ascii_of_nat 34.

(** [escapeXML], the five replacements in the order of the source. *)
Definition escapeXML (str : string) : string :=
  replaceAll "'"%char "&#39;"
    (replaceAll dquote "&quot;"
       (replaceAll ">"%char "&gt;"
          (replaceAll "<"%char "&lt;"
             (replaceAll "&"%char "&amp;" str)))).

(** What the five replacements make of one character. *)
Definition escapeChar (a : Ascii.ascii) : string :=
  if decide (a = "&"%char) then "&amp;"
  else if decide (a = "<"%char) then "&lt;"
  else if decide (a = ">"%char) then "&gt;"
  else if decide (a = dquote) then "&quot;"
  else if decide (a = "'"%char) then "&#39;"
  else String a EmptyString.

Definition special (a : Ascii.ascii) : Prop :=
  a = "&"%char ∨ a = "<"%char ∨ a = ">"%char ∨ a = dquote ∨ a = "'"%char.

Lemma append_cons (a : Ascii.ascii) (s1 s2 : string) :
  String a s1 +:+ s2 = String a (s1 +:+ s2).
Proof. reflexivity. Qed.

Lemma append_assoc (s1 s2 s3 : string) : (s1 +:+ s2) +:+ s3 = s1 +:+ (s2 +:+ s3).
Proof.
  induction s1 as [|a s1 IH]; [done|].
  rewrite !append_cons. f_equal. exact IH.
Qed.

Lemma replaceAll_append c by_ s1 s2 :
  replaceAll c by_ (s1 +:+ s2) = replaceAll c by_ s1 +:+ replaceAll c by_ s2.
Proof.
  induction s1 as [|a s1 IH]; [done|].
  rewrite append_cons. cbn [replaceAll].
  destruct (decide (a = c)); rewrite IH; [by rewrite append_assoc | done].
Qed.

(** The replacements do not disturb each other: the text is escaped
    character by character. *)
Lemma escapeXML_cons (a : Ascii.ascii) (rest : string) :
  escapeXML (String a rest) = escapeChar a +:+ escapeXML rest.
Proof.
  unfold escapeXML, escapeChar. cbn [replaceAll].
  destruct (decide (a = "&"%char)) as [->|H1].
  { by rewrite !replaceAll_append. }
  cbn [replaceAll]. destruct (decide (a = "<"%char)) as [->|H2].
  { by rewrite !replaceAll_append. }
  cbn [replaceAll]. destruct (decide (a = ">"%char)) as [->|H3].
  { by rewrite !replaceAll_append. }
  cbn [replaceAll]. destruct (decide (a = dquote)) as [->|H4].
  { by rewrite !replaceAll_append. }
  cbn [replaceAll]. by destruct (decide (a = "'"%char)) as [->|H5].
Qed.

Lemma list_ascii_of_append (s1 s2 : string) :
  String.list_ascii_of_string (s1 +:+ s2)
  = String.list_ascii_of_string s1 ++ String.list_ascii_of_string s2.
Proof.
  induction s1 as [|a s1 IH]; [done|].
  rewrite append_cons. cbn [String.list_ascii_of_string app]. by rewrite IH.
Qed.

Lemma escapeChar_markup (a c : Ascii.ascii) :
  c ∈ String.list_ascii_of_string (escapeChar a) →
  c ≠ "<"%char ∧ c ≠ ">"%char ∧ c ≠ dquote ∧ c ≠ "'"%char.
Proof.
  unfold escapeChar.
  repeat (destruct (decide _) as [->|?]);
    cbn; rewrite ?elem_of_cons, elem_of_nil; intros H;
    repeat (destruct H as [->|H]); try done.
Qed.

(** X9.  The escaped text holds no [<], no [>] and no quote of either kind,
    and a text without the five characters is returned as it is. *)
Theorem escapeXML_no_markup (str : string) :
  (∀ c, c ∈ String.list_ascii_of_string (escapeXML str) →
        c ≠ "<"%char ∧ c ≠ ">"%char ∧ c ≠ dquote ∧ c ≠ "'"%char) ∧
  (Forall (λ a, ¬ special a) (String.list_ascii_of_string str) → escapeXML str = str).
Proof.
  split.
  - induction str as [|a rest IH]; intros c.
    + by intros ?%elem_of_nil.
    + rewrite escapeXML_cons, list_ascii_of_append, elem_of_app.
      intros [H|H]; [by eapply escapeChar_markup | by apply IH].
  - induction str as [|a rest IH]; [done|]. cbn [String.list_ascii_of_string].
    intros [Ha Hrest]%Forall_cons.
    rewrite escapeXML_cons, IH by done. unfold escapeChar, special in *.
    repeat (destruct (decide _) as [->|?]); try done; exfalso; apply Ha; tauto.
Qed.

Lemma escapeChar_inj_append (a b : Ascii.ascii) (s1 s2 : string) :
  escapeChar a +:+ s1 = escapeChar b +:+ s2 → a = b ∧ s1 = s2.
Proof.
  unfold escapeChar.
  repeat (destruct (decide (a = _)) as [->|?]);
    repeat (destruct (decide (b = _)) as [->|?]);
    cbn; intros H; simplify_eq; done.
Qed.

(** X10.  Escaping loses nothing: two texts with the same escaped form are
    the same text. *)
Theorem escapeXML_inj (s1 s2 : string) :
  escapeXML s1 = escapeXML s2 → s1 = s2.
Proof.
  revert s2. induction s1 as [|a s1 IH]; intros [|b s2].
  - done.
  - rewrite escapeXML_cons. unfold escapeChar.
    repeat (destruct (decide _) as [->|?]); done.
  - rewrite escapeXML_cons. unfold escapeChar.
    repeat (destruct (decide _) as [->|?]); done.
  - rewrite !escapeXML_cons. intros [-> H]%escapeChar_inj_append.
    f_equal. by apply IH.
Qed.

Example escapeXML_sample :
  escapeXML "Q&A: is 1 < 2 > 0? 'yes'"
  = "Q&amp;A: is 1 &lt; 2 &gt; 0? &#39;yes&#39;".
Proof. reflexivity. Qed.

Lemma escapeXML_inj_witness :
  escapeXML "a<b" = escapeXML "a<b" ∧ "a<b" = "a<b".
Proof.
  split; [reflexivity|]. apply (escapeXML_inj "a<b" "a<b"). reflexivity.
Defined.

End XML.

(** ** More of the resilient client: the cursor, the cooldowns, the status *)

Module AIClientExtra.
Import AIClient.

Inductive ModelStatus := available | cooldown.

(** [getModelStatus]; [now] is its [Date.now()]. *)
Definition getModelStatus (now : Z) (s : State) : gmap string ModelStatus :=
  foldl (λ status model,
           <[model := if inCooldown s model now then cooldown else available]> status)
        ∅ (models s).

(** A property of the state that every turn keeps holds after every
    sequence of turns, and in front of each of them. *)
Lemma Run_invariant (I : State → Prop) s log s' :
  (∀ prompt w s0, I s0 → I (attempt prompt w s0).1) →
  Run s log s' → I s → I s' ∧ Forall (λ e, I (before e)) log.
Proof.
  intros Hstep. induction 1 as [s|e log s' He Hrun IH]; intros Hs; [by split|].
  assert (Ha : I (after e)).
  { pose proof (Hstep (asked e) (tick e) (before e) Hs) as H. by rewrite He in H. }
  destruct (IH Ha) as [H1 H2]. split; [done | by constructor].
Qed.

(** *** The cursor stays inside the list *)

Definition in_range (s : State) : Prop := currentModelIndex s < length (models s).

Lemma downgradeModel_in_range s : in_range s → in_range (downgradeModel s).
Proof.
  unfold in_range, downgradeModel.
  destruct (Z.of_nat (currentModelIndex s) <? Z.of_nat (length (models s)) - 1)%Z eqn:E;
    [|done].
  apply Z.ltb_lt in E. cbn. lia.
Qed.

Lemma attempt_in_range prompt w s : in_range s → in_range (attempt prompt w s).1.
Proof.
  intros Hs. unfold attempt.
  destruct (inCooldown _ _ _); [by apply downgradeModel_in_range|].
  destruct (answer w (request s prompt)) as [r|m|]; cbn [fst].
  - unfold upgradeModelIfPossible, in_range in *.
    destruct (_ && _); cbn; lia.
  - apply downgradeModel_in_range. by destruct (isRateLimit m).
  - done.
Qed.

Lemma getCurrentModel_in_range s : in_range s → getCurrentModel s ∈ models s.
Proof.
  unfold in_range, getCurrentModel. intros Hs.
  destruct (lookup_lt_is_Some_2 (models s) (currentModelIndex s) Hs) as [m Hm].
  rewrite Hm. cbn. by eapply list_elem_of_lookup_2.
Qed.

(** X11.  The cursor never leaves the list of models: on a client whose
    cursor is inside the list, every turn of every sequence of calls is
    aimed at a model of the list, and so is [getCurrentModel] afterwards. *)
Theorem cursor_stays_in_range (calls : list Call) (s s' : State)
    (rs : list Result) (log : list Attempt) :
  currentModelIndex s < length (models s) →
  session calls s = (s', rs, log) →
  currentModelIndex s' < length (models s') ∧
  getCurrentModel s' ∈ models s ∧
  Forall (λ e, rank e < length (models s) ∧ target e ∈ models s) log.
Proof.
  intros Hs Hsess. apply session_Run in Hsess.
  destruct (Run_models _ _ _ Hsess) as [Hm Hms].
  destruct (Run_invariant in_range _ _ _ attempt_in_range Hsess Hs) as [Hs' Hlog].
  split_and!; [done | rewrite <- Hm; by apply getCurrentModel_in_range |].
  rewrite Forall_forall in Hlog, Hms. apply Forall_forall. intros e He.
  specialize (Hlog e He). specialize (Hms e He). cbn in Hms.
  unfold rank, target. rewrite <- Hms.
  split; [done | by apply getCurrentModel_in_range].
Qed.

(** *** How far a turn moves the cursor *)

Lemma attempt_moves prompt w s :
  match (attempt prompt w s).2 with
  | Succeeded _ =>
      currentModelIndex s - 1 ≤ currentModelIndex (attempt prompt w s).1
      ≤ currentModelIndex s
  | _ =>
      currentModelIndex s ≤ currentModelIndex (attempt prompt w s).1
      ≤ currentModelIndex s + 1
  end.
Proof.
  assert (Hd : ∀ s0, currentModelIndex s0 ≤ currentModelIndex (downgradeModel s0)
                     ≤ currentModelIndex s0 + 1).
  { intros s0. unfold downgradeModel. destruct (_ <? _)%Z; cbn; lia. }
  unfold attempt. destruct (inCooldown _ _ _); cbn; [apply Hd|].
  destruct (answer w (request s prompt)) as [r|m|]; cbn.
  - unfold upgradeModelIfPossible. destruct (_ && _); cbn; lia.
  - destruct (isRateLimit m); [|apply Hd].
    apply (Hd (set_cooldown (getCurrentModel s) (after_time w + cooldownMs) s)).
  - lia.
Qed.

(** X12.  A turn moves the cursor by at most one rank: towards worse models
    only when the turn fails or is skipped, towards better ones only when it
    succeeds. *)
Theorem cursor_moves_one_rank (calls : list Call) (s s' : State)
    (rs : list Result) (log : list Attempt) :
  session calls s = (s', rs, log) →
  Forall (λ e,
    match outcome e with
    | Succeeded _ => rank e - 1 ≤ currentModelIndex (after e) ≤ rank e
    | _ => rank e ≤ currentModelIndex (after e) ≤ rank e + 1
    end) log.
Proof.
  intros Hsess. apply session_Run in Hsess.
  eapply Run_turns; [|exact Hsess]. intros e He.
  pose proof (attempt_moves (asked e) (tick e) (before e)) as H.
  by rewrite He in H.
Qed.

(** *** Cooldowns *)

Lemma noRecentRateLimits_false s now m t :
  rateLimitCooldown s !! m = Some t → (now < t)%Z → noRecentRateLimits s now = false.
Proof.
  intros Hm Ht. unfold noRecentRateLimits.
  rewrite bool_decide_eq_true_2; [done|].
  apply map_Exists_lookup. eauto.
Qed.

Lemma noRecentRateLimits_true s now :
  (∀ m t, rateLimitCooldown s !! m = Some t → (t ≤ now)%Z) →
  noRecentRateLimits s now = true.
Proof.
  intros H. unfold noRecentRateLimits.
  rewrite bool_decide_eq_false_2; [done|].
  intros (m & t & Hm & Ht)%map_Exists_lookup. specialize (H m t Hm). lia.
Qed.

(** X13.  A success does not move the cursor to a better model while any
    model at all has a cooldown that is still running, whichever model the
    cooldown belongs to. *)
Theorem no_upgrade_during_any_cooldown (calls : list Call) (s s' : State)
    (rs : list Result) (log : list Attempt) (e : Attempt) (m : string) (t : Z)
    (response : string) :
  session calls s = (s', rs, log) →
  e ∈ log →
  outcome e = Succeeded response →
  rateLimitCooldown (before e) !! m = Some t →
  (after_time (tick e) < t)%Z →
  after e = before e.
Proof.
  intros Hsess He Hout Hm Ht. apply session_Run in Hsess.
  assert (Hall : Forall (λ e, attempt (asked e) (tick e) (before e) = (after e, outcome e)) log)
    by (eapply Run_turns; [|exact Hsess]; done).
  rewrite Forall_forall in Hall. specialize (Hall e He).
  rewrite Hout in Hall. unfold attempt in Hall.
  destruct (inCooldown _ _ _); [done|].
  destruct (answer _ _); [|done|done].
  injection Hall as <- _. unfold upgradeModelIfPossible.
  rewrite (noRecentRateLimits_false _ _ m t Hm Ht). by rewrite andb_false_r.
Qed.

Lemma attempt_rate_limited prompt w s s' message :
  attempt prompt w s = (s', Failed message) →
  isRateLimit message = true →
  rateLimitCooldown s' !! getCurrentModel s = Some (after_time w + cooldownMs)%Z.
Proof.
  unfold attempt. destruct (inCooldown _ _ _); [done|].
  destruct (answer w (request s prompt)) as [|m0|]; [done| |done].
  intros [= <- ->] ->. unfold downgradeModel.
  destruct (_ <? _)%Z; cbn; apply lookup_insert_eq.
Qed.

Lemma attempt_keeps_cooldown prompt w s m t :
  rateLimitCooldown s !! m = Some t → t ≠ 0%Z → (check_time w < t)%Z →
  rateLimitCooldown (attempt prompt w s).1 !! m = Some t ∧
  (getCurrentModel s = m → (attempt prompt w s).2 = Skipped).
Proof.
  intros Hm Hnz Ht.
  assert (Hd : ∀ s0, rateLimitCooldown (downgradeModel s0) = rateLimitCooldown s0).
  { intros s0. unfold downgradeModel. by destruct (_ <? _)%Z. }
  unfold attempt. destruct (decide (getCurrentModel s = m)) as [Heq|Hne].
  - assert (Hcd : inCooldown s (getCurrentModel s) (check_time w) = true).
    { unfold inCooldown. rewrite Heq, Hm. apply andb_true_intro. split.
      - by apply negb_true_iff, Z.eqb_neq.
      - by apply Z.ltb_lt. }
    rewrite Hcd. cbn. by rewrite Hd.
  - split; [|done]. destruct (inCooldown _ _ _); cbn; [by rewrite Hd|].
    destruct (answer w (request s prompt)) as [r|msg|]; cbn.
    + unfold upgradeModelIfPossible. by destruct (_ && _).
    + rewrite Hd. destruct (isRateLimit msg); [|done].
      cbn. by rewrite lookup_insert_ne.
    + done.
Qed.

Lemma Run_keeps_cooldown s log s' m t :
  Run s log s' →
  rateLimitCooldown s !! m = Some t → t ≠ 0%Z →
  Forall (λ e, (check_time (tick e) < t)%Z) log →
  Forall (λ e, target e = m → outcome e = Skipped) log.
Proof.
  induction 1 as [s|e log s' He Hrun IH]; intros Hm Hnz Hlog; [done|].
  apply Forall_cons in Hlog as [Hte Hlog].
  destruct (attempt_keeps_cooldown (asked e) (tick e) (before e) m t Hm Hnz Hte)
    as [Hkeep Hskip].
  rewrite He in Hkeep, Hskip. constructor; [done | by apply IH].
Qed.

(** X14.  A model that failed with a rate-limit or quota error is not
    called again until its cooldown is over: every later turn aimed at it,
    in this call or a later one, is skipped for as long as the clock at the
    turns stays before the model's expiry. *)
Theorem no_call_during_cooldown (calls : list Call) (s s' : State)
    (rs : list Result) (pre window post : list Attempt) (e1 e2 : Attempt)
    (message : string) :
  session calls s = (s', rs, pre ++ e1 :: window ++ e2 :: post) →
  outcome e1 = Failed message →
  isRateLimit message = true →
  (after_time (tick e1) + 5 * 60 * 1000 ≠ 0)%Z →
  Forall (λ e, (check_time (tick e) < after_time (tick e1) + 5 * 60 * 1000)%Z)
         (window ++ [e2]) →
  target e2 = target e1 →
  outcome e2 = Skipped.
Proof.
  intros Hsess Hout Hmsg Hnz Hwin Htarget.
  apply session_Run in Hsess.
  apply Run_split in Hsess as (s1 & _ & Hsess).
  inversion Hsess as [|e log s2 He1 Hrest]; subst.
  rewrite Hout in He1. apply attempt_rate_limited in He1; [|done].
  replace (window ++ e2 :: post) with ((window ++ [e2]) ++ post) in Hrest
    by (by rewrite <- app_assoc).
  apply Run_split in Hrest as (s3 & Hrest & _).
  pose proof (Run_keeps_cooldown _ _ _ _ _ Hrest He1 Hnz Hwin) as Hall.
  apply Forall_app in Hall as [_ Hall]. apply Forall_inv in Hall.
  by apply Hall.
Qed.

(** X15.  A cooldown is only ever recorded for a model of the list: if the
    cursor is inside the list and every recorded cooldown belongs to a model
    of the list, the same holds after every sequence of calls. *)
Theorem cooldowns_belong_to_models (calls : list Call) (s s' : State)
    (rs : list Result) (log : list Attempt) :
  currentModelIndex s < length (models s) →
  (∀ m, is_Some (rateLimitCooldown s !! m) → m ∈ models s) →
  session calls s = (s', rs, log) →
  ∀ m, is_Some (rateLimitCooldown s' !! m) → m ∈ models s.
Proof.
  intros Hs Hcd Hsess. apply session_Run in Hsess.
  destruct (Run_models _ _ _ Hsess) as [Hm _].
  pose (I := λ s0 : State,
    in_range s0 ∧ ∀ m, is_Some (rateLimitCooldown s0 !! m) → m ∈ models s0).
  assert (Hstep : ∀ prompt w s0, I s0 → I (attempt prompt w s0).1).
  { intros prompt w s0 [Hr Hc]. split; [by apply attempt_in_range|].
    rewrite attempt_models.
    assert (Hd : ∀ s1, rateLimitCooldown (downgradeModel s1) = rateLimitCooldown s1).
    { intros s1. unfold downgradeModel. by destruct (_ <? _)%Z. }
    unfold attempt. destruct (inCooldown _ _ _); cbn; [by rewrite Hd|].
    destruct (answer w (request s0 prompt)) as [r|msg|]; cbn.
    - unfold upgradeModelIfPossible. by destruct (_ && _).
    - rewrite Hd. destruct (isRateLimit msg); [|done]. cbn.
      intros m. destruct (decide (getCurrentModel s0 = m)) as [<-|Hne].
      + intros _. by apply getCurrentModel_in_range.
      + rewrite lookup_insert_ne by done. apply Hc.
    - done. }
  destruct (Run_invariant I _ _ _ Hstep Hsess) as [[_ Hfinal] _]; [by split|].
  intros m Hsome. rewrite <- Hm. by apply Hfinal.
Qed.

(** *** Coming back to the best model *)

(** A call that the backend answers at its first turn, made when every
    recorded cooldown is over. *)
Definition answered (s : State) (c : Call) : Prop :=
  (1 ≤ maxRetries c)%Z ∧
  (∀ m t, rateLimitCooldown s !! m = Some t →
     (t ≤ check_time (world c 0))%Z ∧ (t ≤ after_time (world c 0))%Z) ∧
  (∀ model, ∃ response,
     (if geminiClient s then generateContent (world c 0) (prompt c)
      else makeAPICall (world c 0) model (prompt c)) = Returned response).

Lemma generateResponse_answered (s : State) (c : Call) :
  answered s c →
  ∃ s1 response e,
    generateResponse (prompt c) (maxRetries c) (world c) s
    = Some (s1, Return response, [e]) ∧
    currentModelIndex s1 = currentModelIndex s - 1 ∧
    rateLimitCooldown s1 = rateLimitCooldown s ∧
    geminiClient s1 = geminiClient s.
Proof.
  intros (Hretries & Hcool & Hcall).
  destruct (Hcall (getCurrentModel s)) as [response Hresp].
  assert (Hnot : inCooldown s (getCurrentModel s) (check_time (world c 0)) = false).
  { unfold inCooldown. destruct (rateLimitCooldown s !! getCurrentModel s) as [t|] eqn:Ht;
      [|done].
    destruct (Hcool _ _ Ht) as [Hle _].
    apply andb_false_intro2, Z.ltb_ge. lia. }
  assert (Hatt : attempt (prompt c) (world c 0) s
                 = (upgradeModelIfPossible (after_time (world c 0)) s, Succeeded response)).
  { unfold attempt. rewrite Hnot.
    replace (answer (world c 0) (request s (prompt c))) with (Returned response);
      [done|].
    rewrite <- Hresp. unfold answer, request. by destruct (geminiClient s). }
  exists (upgradeModelIfPossible (after_time (world c 0)) s), response,
    {| asked := prompt c; before := s; tick := world c 0;
       outcome := Succeeded response;
       after := upgradeModelIfPossible (after_time (world c 0)) s |}.
  split.
  - unfold generateResponse. cbn [generateLoop].
    destruct (0 <? maxRetries c)%Z eqn:E; [|apply Z.ltb_ge in E; lia].
    change (Z.to_nat 0) with 0. by rewrite Hatt.
  - unfold upgradeModelIfPossible.
    rewrite (noRecentRateLimits_true s (after_time (world c 0)))
      by (intros m t Ht; by destruct (Hcool m t Ht)).
    rewrite andb_true_r. destruct (0 <? currentModelIndex s) eqn:E; cbn; [done|].
    apply Nat.ltb_ge in E. split_and!; [lia | done | done].
Qed.

(** X16.  Once every cooldown is over, each answered call moves the cursor
    one rank towards the best model until it is there: after [n] such calls,
    each of one turn, the rank is the former rank less [n], and 0 from then
    on. *)
Theorem successes_restore_rank (calls : list Call) (s s' : State)
    (rs : list Result) (log : list Attempt) :
  Forall (answered s) calls →
  session calls s = (s', rs, log) →
  currentModelIndex s' = currentModelIndex s - length calls ∧
  Forall (λ r, ∃ response, r = Return response) rs ∧
  length rs = length calls ∧
  length log = length calls.
Proof.
  revert s s' rs log. induction calls as [|c calls IH]; intros s s' rs log Hall.
  - cbn. intros [= <- <- <-]. split_and!; [lia | done | done | done].
  - apply Forall_cons in Hall as [Hc Hall]. cbn [session].
    destruct (generateResponse_answered s c Hc) as (s1 & response & e & -> & Hidx & Hcd & Hg).
    destruct (session calls s1) as [[s2 rs2] log2] eqn:Hrest.
    intros [= <- <- <-].
    assert (Hall1 : Forall (answered s1) calls).
    { eapply Forall_impl; [exact Hall|]. intros c' (H1 & H2 & H3).
      unfold answered. rewrite Hcd, Hg. done. }
    destruct (IH s1 s2 rs2 log2 Hall1 Hrest) as (Hidx2 & Hrs & Hlen & Hlog).
    split_and!.
    + rewrite Hidx2, Hidx. cbn. lia.
    + constructor; [by exists response | done].
    + cbn. by rewrite Hlen.
    + cbn. by rewrite Hlog.
Qed.

(** *** The status report *)

Lemma status_fold_lookup (f : string → ModelStatus) (l : list string)
    (acc : gmap string ModelStatus) (m : string) :
  foldl (λ status model, <[model := f model]> status) acc l !! m
  = if decide (m ∈ l) then Some (f m) else acc !! m.
Proof.
  revert acc. induction l as [|x l IH]; intros acc; cbn [foldl].
  - rewrite decide_False; [done | apply not_elem_of_nil].
  - rewrite IH. destruct (decide (m ∈ l)) as [Hin|Hnotin].
    + rewrite decide_True; [done | by right].
    + destruct (decide (m = x)) as [->|Hne].
      * rewrite decide_True by left. apply lookup_insert_eq.
      * rewrite decide_False by (rewrite elem_of_cons; tauto).
        by rewrite lookup_insert_ne.
Qed.

(** X17.  [getModelStatus] has one entry for each model of the list and no
    other; a model is reported in cooldown exactly when a turn aimed at it
    would be skipped; and whenever the upgrade check finds no running
    cooldown, every model is reported available. *)
Theorem getModelStatus_spec (now : Z) (s : State) :
  (∀ m, getModelStatus now s !! m
        = if decide (m ∈ models s)
          then Some (if inCooldown s m now then cooldown else available)
          else None) ∧
  (noRecentRateLimits s now = true →
   ∀ m, m ∈ models s → getModelStatus now s !! m = Some available).
Proof.
  assert (Hlookup : ∀ m, getModelStatus now s !! m
        = if decide (m ∈ models s)
          then Some (if inCooldown s m now then cooldown else available)
          else None).
  { intros m. unfold getModelStatus.
    rewrite (status_fold_lookup
               (λ model, if inCooldown s model now then cooldown else available)).
    by destruct (decide (m ∈ models s)). }
  split; [exact Hlookup|].
  intros Hno m Hm. rewrite Hlookup, decide_True by done.
  unfold inCooldown. destruct (rateLimitCooldown s !! m) as [t|] eqn:Ht; [|done].
  destruct (now <? t)%Z eqn:E; [|by rewrite andb_false_r].
  apply Z.ltb_lt in E. by rewrite (noRecentRateLimits_false s now m t) in Hno.
Qed.

(** *** Worked examples *)

(** Three calls that are answered, on a client left at the last model. *)
Definition calmCalls : list Call :=
  [ {| prompt := "one"; maxRetries := 3; world := λ _, answering 400000 |};
    {| prompt := "two"; maxRetries := 3; world := λ _, answering 500000 |};
    {| prompt := "three"; maxRetries := 1; world := λ _, answering 600000 |} ].

(** The client after three rate-limited turns at time 10. *)
Definition wornClient : State :=
  (session [ {| prompt := "Summarise"; maxRetries := 3; world := λ _, rateLimited 10 |} ]
           (init false)).1.1.

Example wornClient_state :
  currentModelIndex wornClient = 2 ∧
  getModelStatus 20 wornClient
  = {[ "gemini-2.0-flash-exp" := cooldown; "gemini-1.5-pro" := cooldown;
       "gemini-1.5-flash" := cooldown ]} ∧
  getModelStatus 400000 wornClient
  = {[ "gemini-2.0-flash-exp" := available; "gemini-1.5-pro" := available;
       "gemini-1.5-flash" := available ]}.
Proof. vm_compute. done. Qed.

Lemma cursor_stays_in_range_witness :
  ∃ s' rs log,
    currentModelIndex (init false) < length (models (init false)) ∧
    session sampleCalls (init false) = (s', rs, log) ∧
    currentModelIndex s' < length (models s') ∧
    getCurrentModel s' ∈ models (init false) ∧
    Forall (λ e, rank e < length (models (init false)) ∧ target e ∈ models (init false)) log.
Proof.
  eexists _, _, _. split; [cbn; lia|]. split; [vm_compute; reflexivity|].
  eapply (cursor_stays_in_range sampleCalls (init false)).
  - cbn. lia.
  - vm_compute. reflexivity.
Defined.

Lemma cursor_moves_one_rank_witness :
  ∃ s' rs log,
    session sampleCalls (init false) = (s', rs, log) ∧
    Forall (λ e,
      match outcome e with
      | Succeeded _ => rank e - 1 ≤ currentModelIndex (after e) ≤ rank e
      | _ => rank e ≤ currentModelIndex (after e) ≤ rank e + 1
      end) log.
Proof.
  eexists _, _, _. split; [vm_compute; reflexivity|].
  eapply (cursor_moves_one_rank sampleCalls (init false)).
  vm_compute. reflexivity.
Defined.

(** The second turn of [sampleCalls] succeeds at rank 1 while the first
    model is in cooldown. *)
Lemma no_upgrade_during_any_cooldown_witness :
  ∃ s' rs e1 e2,
    session sampleCalls (init false) = (s', rs, [e1; e2]) ∧
    e2 ∈ [e1; e2] ∧
    outcome e2 = Succeeded "Mock AI response for model gemini-1.5-pro" ∧
    rateLimitCooldown (before e2) !! "gemini-2.0-flash-exp" = Some 301010%Z ∧
    (after_time (tick e2) < 301010)%Z ∧
    after e2 = before e2.
Proof.
  eexists _, _, _, _. split; [vm_compute; reflexivity|].
  split; [right; left|]. split; [reflexivity|].
  split; [vm_compute; reflexivity|]. split; [vm_compute; reflexivity|].
  eapply (no_upgrade_during_any_cooldown sampleCalls (init false) _ _ _ _
            "gemini-2.0-flash-exp" 301010).
  - vm_compute. reflexivity.
  - right; left.
  - reflexivity.
  - vm_compute. reflexivity.
  - vm_compute. reflexivity.
Defined.

(** Two calls of two turns each, all rate limited, on a client with two
    models: the fourth turn is aimed at the model of the second. *)
Definition twoModels : State :=
  {| models := ["gemini-1.5-pro"; "gemini-1.5-flash"]; currentModelIndex := 0;
     rateLimitCooldown := ∅; geminiClient := false |}.

Definition limitedCalls : list Call :=
  [ {| prompt := "Summarise"; maxRetries := 2; world := λ _, rateLimited 10 |};
    {| prompt := "Summarise"; maxRetries := 2; world := λ _, rateLimited 20 |} ].

Lemma no_call_during_cooldown_witness :
  ∃ s' rs e0 e1 e2 e3,
    session limitedCalls twoModels = (s', rs, [e0] ++ e1 :: [e2] ++ e3 :: []) ∧
    outcome e1 = Failed "rate_limit: Too many requests" ∧
    Forall (λ e, (check_time (tick e) < after_time (tick e1) + 5 * 60 * 1000)%Z)
           ([e2] ++ [e3]) ∧
    target e3 = target e1 ∧
    outcome e3 = Skipped.
Proof.
  eexists _, _, _, _, _, _. split; [vm_compute; reflexivity|].
  split; [reflexivity|].
  match goal with
  | |- ?F ∧ _ => assert (Hwin : F) by (repeat constructor; cbn; lia)
  end.
  split; [exact Hwin|]. split; [reflexivity|].
  eapply (no_call_during_cooldown limitedCalls twoModels _ _ [_] [_] []
            _ _ "rate_limit: Too many requests").
  - vm_compute. reflexivity.
  - reflexivity.
  - reflexivity.
  - cbn. lia.
  - exact Hwin.
  - reflexivity.
Defined.

Lemma cooldowns_belong_to_models_witness :
  ∃ s' rs log,
    session sampleCalls (init false) = (s', rs, log) ∧
    ∀ m, is_Some (rateLimitCooldown s' !! m) → m ∈ models (init false).
Proof.
  eexists _, _, _. split; [vm_compute; reflexivity|].
  eapply (cooldowns_belong_to_models sampleCalls (init false)).
  - cbn. lia.
  - intros m [x Hx]. cbn in Hx. by rewrite lookup_empty in Hx.
  - vm_compute. reflexivity.
Defined.

Lemma successes_restore_rank_witness :
  ∃ s' rs log,
    Forall (answered wornClient) calmCalls ∧
    session calmCalls wornClient = (s', rs, log) ∧
    currentModelIndex s' = currentModelIndex wornClient - length calmCalls ∧
    currentModelIndex s' = 0 ∧
    length log = length calmCalls.
Proof.
  assert (Hcool : map_Forall (λ _ t, (t ≤ 301010)%Z) (rateLimitCooldown wornClient)).
  { apply (bool_decide_unpack _). vm_compute. exact I. }
  assert (Hone : ∀ c,
    (1 ≤ maxRetries c)%Z →
    (301010 ≤ check_time (world c 0))%Z →
    (301010 ≤ after_time (world c 0))%Z →
    (∀ model, ∃ response, makeAPICall (world c 0) model (prompt c) = Returned response) →
    answered wornClient c).
  { intros c H1 H2 H3 H4. split; [done|]. split; [|exact H4].
    intros m t Ht. specialize (Hcool m t Ht). cbn in Hcool. lia. }
  assert (Hall : Forall (answered wornClient) calmCalls).
  { repeat apply Forall_cons_2; [..|apply Forall_nil_2];
      (apply Hone; cbn; [lia | lia | lia | intros model; eexists; reflexivity]). }
  eexists _, _, _. split; [exact Hall|]. split; [vm_compute; reflexivity|].
  destruct (successes_restore_rank calmCalls wornClient _ _ _ Hall eq_refl)
    as (Hidx & _ & _ & Hlog).
  split; [exact Hidx|]. split; [reflexivity | exact Hlog].
Defined.

End AIClientExtra.

(** ** More of the instance manager: timers, cycles, cleanup, statistics *)

Module InstanceManagerExtra.
Import InstanceManager.

(** [getInstance] *)
Definition getInstance (instanceId : string) (sys : System) : option AgentInstance :=
  instances sys !! instanceId.

(** [getAllInstances]: the instances of the registry (their order is not
    used below). *)
Definition getAllInstances (sys : System) : list AgentInstance :=
  (map_to_list (instances sys)).*2.

(** [getRunningInstances] *)
Definition getRunningInstances (sys : System) : list AgentInstance :=
  filter (λ instance, status instance = running) (getAllInstances sys).

(** [Math.min(...xs)] and [Math.max(...xs)] for a list that is not empty. *)
Definition minimum (x : Z) (xs : list Z) : Z := foldl Z.min x xs.
Definition maximum (x : Z) (xs : list Z) : Z := foldl Z.max x xs.

Record Stats := {
  total : nat;
  n_running : nat;
  n_stopped : nat;
  n_error : nat;
  oldestInstance : option Z;
  newestInstance : option Z
}.

(** [getStats] *)
Definition getStats (sys : System) : Stats :=
  let all := getAllInstances sys in
  let dates := lastUpdate <$> all in
  {| total := length all;
     n_running := length (filter (λ i, status i = running) all);
     n_stopped := length (filter (λ i, status i = stopped) all);
     n_error := length (filter (λ i, status i = error) all);
     oldestInstance := match dates with [] => None | d :: ds => Some (minimum d ds) end;
     newestInstance := match dates with [] => None | d :: ds => Some (maximum d ds) end |}.

(** *** Statistics *)

Lemma minimum_le x xs : (minimum x xs ≤ x)%Z ∧ Forall (λ y, (minimum x xs ≤ y)%Z) xs.
Proof.
  unfold minimum. revert x. induction xs as [|y ys IH]; intros x; cbn; [split; [lia|done]|].
  destruct (IH (Z.min x y)) as [H1 H2]. split; [lia|].
  constructor; [lia | done].
Qed.

Lemma maximum_ge x xs : (x ≤ maximum x xs)%Z ∧ Forall (λ y, (y ≤ maximum x xs)%Z) xs.
Proof.
  unfold maximum. revert x. induction xs as [|y ys IH]; intros x; cbn; [split; [lia|done]|].
  destruct (IH (Z.max x y)) as [H1 H2]. split; [lia|].
  constructor; [lia | done].
Qed.

Lemma count_by_status (l : list AgentInstance) :
  length l
  = length (filter (λ i, status i = running) l)
    + length (filter (λ i, status i = stopped) l)
    + length (filter (λ i, status i = error) l).
Proof.
  induction l as [|i l IH]; [done|].
  rewrite !filter_cons. destruct (status i) eqn:E;
    repeat (destruct (decide _); try done); cbn; lia.
Qed.

(** X18.  The statistics add up: every instance is counted once, as
    running, stopped or error; the total is the size of the registry;
    [oldestInstance] and [newestInstance] are there exactly when the
    registry is not empty, and then they bound the [lastUpdate] of every
    instance. *)
Theorem getStats_consistent (sys : System) :
  total (getStats sys) = size (instances sys) ∧
  total (getStats sys)
  = n_running (getStats sys) + n_stopped (getStats sys) + n_error (getStats sys) ∧
  n_running (getStats sys) = length (getRunningInstances sys) ∧
  (instances sys = ∅ →
   oldestInstance (getStats sys) = None ∧ newestInstance (getStats sys) = None) ∧
  (instances sys ≠ ∅ →
   ∃ lo hi,
     oldestInstance (getStats sys) = Some lo ∧
     newestInstance (getStats sys) = Some hi ∧
     ∀ i instance, instances sys !! i = Some instance →
       (lo ≤ lastUpdate instance ≤ hi)%Z).
Proof.
  split_and!.
  - unfold getStats, getAllInstances. cbn. by rewrite length_fmap, length_map_to_list.
  - apply count_by_status.
  - done.
  - intros Hempty. unfold getStats, getAllInstances. rewrite Hempty.
    by rewrite map_to_list_empty.
  - intros Hne. unfold getStats. cbn.
    assert (Hall : ∀ i instance, instances sys !! i = Some instance →
              lastUpdate instance ∈ lastUpdate <$> getAllInstances sys).
    { intros i instance Hi. apply list_elem_of_fmap_2. unfold getAllInstances.
      apply list_elem_of_fmap. exists (i, instance). split; [done|].
      by apply elem_of_map_to_list. }
    destruct (lastUpdate <$> getAllInstances sys) as [|d ds] eqn:Hdates.
    + exfalso. apply Hne. apply map_empty. intros i.
      destruct (instances sys !! i) as [instance|] eqn:Hi; [|done].
      by apply Hall, elem_of_nil in Hi.
    + exists (minimum d ds), (maximum d ds). split_and!; [done | done |].
      intros i instance Hi. apply Hall in Hi.
      destruct (minimum_le d ds) as [Hlo Hlos], (maximum_ge d ds) as [Hhi Hhis].
      rewrite Forall_forall in Hlos, Hhis.
      apply elem_of_cons in Hi as [->|Hi]; [lia|].
      specialize (Hlos _ Hi). specialize (Hhis _ Hi). simpl in *. lia.
Qed.

(** *** Operations that change nothing the second time *)

(** X19.  Starting twice arms one timer: after [startInstance] with a timer
    that was armed, a second [startInstance] of the same instance changes
    nothing. *)
Theorem startInstance_twice (now now' : Z) (timers' : Timers) (i : string) (sys : System) :
  (startInstance now' timers' i (startInstance now Armed i sys).1).1
  = (startInstance now Armed i sys).1.
Proof.
  unfold startInstance at 2 3.
  destruct (instances sys !! i) as [instance|] eqn:Hi.
  - destruct (decide (status instance = running)) as [Hrun|Hnot]; cbn [fst].
    + unfold startInstance. by rewrite Hi, decide_True.
    + unfold startInstance. cbn [instances]. rewrite lookup_insert_eq.
      by rewrite decide_True.
  - cbn [fst]. unfold startInstance. by rewrite Hi.
Qed.

(** X20.  A second [stopInstance] changes nothing but the instant it
    records: stopping at [now] and again at [now'] leaves what one
    [stopInstance] at [now'] leaves.  [deleteInstance] answers [false] and
    changes nothing for an instance that is not there, as after a first
    [deleteInstance]. *)
Theorem stop_delete_idempotent (now now' : Z) (i : string) (sys : System) :
  stopInstance now' i (stopInstance now i sys).1 = stopInstance now' i sys ∧
  (instances sys !! i = None → deleteInstance now i sys = (sys, false)) ∧
  instances (deleteInstance now i sys).1 !! i = None ∧
  (∀ now'', deleteInstance now'' i (deleteInstance now i sys).1
            = ((deleteInstance now i sys).1, false)).
Proof.
  assert (Hgone : instances (deleteInstance now i sys).1 !! i = None).
  { unfold deleteInstance. destruct (instances sys !! i) eqn:Hi; [|done].
    cbn. apply lookup_delete_eq. }
  split_and!.
  - unfold stopInstance at 2 3. destruct (instances sys !! i) as [instance|] eqn:Hi.
    + cbn [fst]. unfold stopInstance. cbn [instances]. rewrite lookup_insert_eq.
      cbn. by rewrite insert_insert_eq.
    + cbn [fst]. unfold stopInstance. by rewrite Hi.
  - intros Hi. unfold deleteInstance. by rewrite Hi.
  - exact Hgone.
  - intros now''. unfold deleteInstance at 1. by rewrite Hgone.
Qed.

(** *** Timers and running instances *)

(** The timers of the host match the registry: an instance holds a timer
    handle exactly when it is running, the handle it holds is armed for it,
    every armed timer is the one some instance holds, and handles are not
    reused. *)
Record timers_consistent (sys : System) : Prop := {
  tc_running : ∀ i instance, instances sys !! i = Some instance →
    (status instance = running ↔ is_Some (cronJob instance));
  tc_armed : ∀ i instance h, instances sys !! i = Some instance →
    cronJob instance = Some h → intervals sys !! h = Some i;
  tc_owned : ∀ h i, intervals sys !! h = Some i →
    ∃ instance, instances sys !! i = Some instance ∧ cronJob instance = Some h;
  tc_handles : ∀ h, is_Some (intervals sys !! h) → h < nextHandle sys
}.

Lemma tc_init : timers_consistent init.
Proof.
  split; cbn.
  - intros i instance Hi. by rewrite lookup_empty in Hi.
  - intros i instance h Hi. by rewrite lookup_empty in Hi.
  - intros h i Hh. by rewrite lookup_empty in Hh.
  - intros h [i Hh]. by rewrite lookup_empty in Hh.
Qed.

(** One instance is rewritten without touching its status or its handle. *)
Lemma tc_rewrite_one sys sys' i instance instance' :
  timers_consistent sys →
  instances sys !! i = Some instance →
  instances sys' !! i = Some instance' →
  (∀ j, j ≠ i → instances sys' !! j = instances sys !! j) →
  intervals sys' = intervals sys →
  nextHandle sys' = nextHandle sys →
  status instance' = status instance →
  cronJob instance' = cronJob instance →
  timers_consistent sys'.
Proof.
  intros [H1 H2 H3 H4] Hi Hi' Hother Hint Hnext Hst Hcj. split.
  - intros j x Hj. destruct (decide (j = i)) as [->|Hne].
    + rewrite Hi' in Hj. injection Hj as <-. rewrite Hst, Hcj. by eapply H1.
    + rewrite Hother in Hj by done. by eapply H1.
  - intros j x h Hj Hh. rewrite Hint. destruct (decide (j = i)) as [->|Hne].
    + rewrite Hi' in Hj. injection Hj as <-. rewrite Hcj in Hh. by eapply H2.
    + rewrite Hother in Hj by done. by eapply H2.
  - intros h j Hh. rewrite Hint in Hh. destruct (H3 h j Hh) as (x & Hj & Hx).
    destruct (decide (j = i)) as [->|Hne].
    + exists instance'. split; [done|]. rewrite Hcj. congruence.
    + exists x. by rewrite Hother.
  - intros h Hh. rewrite Hint in Hh. rewrite Hnext. by apply H4.
Qed.

Lemma tc_create now rnd cfg sys :
  timers_consistent sys →
  instances sys !! generateInstanceId now rnd = None →
  timers_consistent (createInstance now rnd cfg sys).1.
Proof.
  intros [H1 H2 H3 H4] Hfresh. split; cbn.
  - intros j x Hj. apply lookup_insert_Some in Hj as [[_ <-]|[_ Hj]]; cbn.
    + split; [done | by intros [? ?]].
    + by eapply H1.
  - intros j x h Hj Hh. apply lookup_insert_Some in Hj as [[_ <-]|[_ Hj]]; [done|].
    by eapply H2.
  - intros h j Hh. destruct (H3 h j Hh) as (x & Hj & Hx). exists x.
    split; [|done]. rewrite lookup_insert_ne; [done|]. intros <-. congruence.
  - exact H4.
Qed.

Lemma tc_stop now i sys :
  timers_consistent sys → timers_consistent (stopInstance now i sys).1.
Proof.
  intros Hsys. pose proof Hsys as [H1 H2 H3 H4]. unfold stopInstance.
  destruct (instances sys !! i) as [instance|] eqn:Hi; [|done]. cbn [fst].
  assert (Hkeep : ∀ h j, j ≠ i → intervals sys !! h = Some j →
            match cronJob instance with
            | Some h0 => delete h0 (intervals sys)
            | None => intervals sys
            end !! h = Some j).
  { intros h j Hne Hh. destruct (cronJob instance) as [h0|] eqn:Hc; [|done].
    rewrite lookup_delete_ne; [done|]. intros <-.
    pose proof (H2 i instance h0 Hi Hc). congruence. }
  assert (Hsub : ∀ h j,
            match cronJob instance with
            | Some h0 => delete h0 (intervals sys)
            | None => intervals sys
            end !! h = Some j → intervals sys !! h = Some j ∧ j ≠ i).
  { intros h j Hh. destruct (cronJob instance) as [h0|] eqn:Hc.
    - apply lookup_delete_Some in Hh as [Hne Hh]. split; [done|].
      intros ->. destruct (H3 h i Hh) as (x & Hx & Hxc). congruence.
    - split; [done|]. intros ->. destruct (H3 h i Hh) as (x & Hx & Hxc). congruence. }
  split; cbn.
  - intros j x Hj. apply lookup_insert_Some in Hj as [[_ <-]|[_ Hj]]; cbn.
    + split; [done | by intros [? ?]].
    + by eapply H1.
  - intros j x h Hj Hh. apply lookup_insert_Some in Hj as [[_ <-]|[Hne Hj]]; [done|].
    apply Hkeep; [done|]. by eapply H2.
  - intros h j Hh. apply Hsub in Hh as [Hh Hne].
    destruct (H3 h j Hh) as (x & Hj & Hx). exists x.
    by rewrite lookup_insert_ne.
  - intros h [j Hh]. apply Hsub in Hh as [Hh _]. apply H4. by exists j.
Qed.

Lemma tc_start now timers i sys :
  timers ≠ TimeoutThrows →
  timers_consistent sys → timers_consistent (startInstance now timers i sys).1.
Proof.
  intros Htimers Hsys. pose proof Hsys as [H1 H2 H3 H4]. unfold startInstance.
  destruct (instances sys !! i) as [instance|] eqn:Hi; [|done].
  destruct (decide (status instance = running)) as [|Hnot]; [done|].
  assert (Hnone : cronJob instance = None).
  { destruct (cronJob instance) as [h|] eqn:Hc; [|done].
    exfalso. apply Hnot. apply (H1 i instance Hi). by exists h. }
  destruct timers; cbn [fst]; [| |done].
  - assert (Hfresh : intervals sys !! nextHandle sys = None).
    { destruct (intervals sys !! nextHandle sys) eqn:E; [|done].
      assert (nextHandle sys < nextHandle sys) by (apply H4; eauto). lia. }
    split; cbn.
    + intros j x Hj. apply lookup_insert_Some in Hj as [[_ <-]|[_ Hj]]; cbn.
      * split; [by eexists | done].
      * by eapply H1.
    + intros j x h Hj Hh. apply lookup_insert_Some in Hj as [[-> <-]|[Hne Hj]]; cbn in *.
      * injection Hh as <-. apply lookup_insert_eq.
      * rewrite lookup_insert_ne; [by eapply H2|].
        intros <-. pose proof (H2 j x _ Hj Hh). congruence.
    + intros h j Hh. apply lookup_insert_Some in Hh as [[<- <-]|[Hne Hh]].
      * eexists. rewrite lookup_insert_eq. split; [done|]. done.
      * destruct (H3 h j Hh) as (x & Hj & Hx). exists x. split; [|done].
        rewrite lookup_insert_ne; [done|]. intros <-. congruence.
    + intros h [j Hh]. apply lookup_insert_Some in Hh as [[<- _]|[_ Hh]]; [lia|].
      assert (h < nextHandle sys) by (apply H4; eauto). lia.
  - split; cbn.
    + intros j x Hj. apply lookup_insert_Some in Hj as [[_ <-]|[_ Hj]]; cbn.
      * rewrite Hnone. split; [done | by intros [? ?]].
      * by eapply H1.
    + intros j x h Hj Hh. apply lookup_insert_Some in Hj as [[_ <-]|[_ Hj]]; cbn in *.
      * congruence.
      * by eapply H2.
    + intros h j Hh. destruct (H3 h j Hh) as (x & Hj & Hx). exists x.
      split; [|done]. rewrite lookup_insert_ne; [done|]. intros <-. congruence.
    + exact H4.
Qed.

(** An instance that holds no timer can leave the registry. *)
Lemma tc_remove i sys :
  timers_consistent sys →
  (∀ instance, instances sys !! i = Some instance → cronJob instance = None) →
  timers_consistent (set_instances (delete i) sys).
Proof.
  intros [H1 H2 H3 H4] Hnone. split; cbn.
  - intros j x [_ Hj]%lookup_delete_Some. by eapply H1.
  - intros j x h [_ Hj]%lookup_delete_Some Hh. by eapply H2.
  - intros h j Hh. destruct (H3 h j Hh) as (x & Hj & Hx). exists x.
    split; [|done]. rewrite lookup_delete_ne; [done|].
    intros <-. specialize (Hnone x Hj). congruence.
  - exact H4.
Qed.

Lemma stopInstance_cronJob now i sys instance :
  instances (stopInstance now i sys).1 !! i = Some instance →
  is_Some (instances sys !! i) → cronJob instance = None.
Proof.
  unfold stopInstance. intros Hi [x Hx]. rewrite Hx in Hi. cbn in Hi.
  rewrite lookup_insert_eq in Hi. by injection Hi as <-.
Qed.

Lemma tc_delete now i sys :
  timers_consistent sys → timers_consistent (deleteInstance now i sys).1.
Proof.
  intros Hsys. unfold deleteInstance.
  destruct (instances sys !! i) as [x|] eqn:Hi; [|done]. cbn [fst].
  apply tc_remove; [by apply tc_stop|].
  intros instance Hinst. eapply stopInstance_cronJob; [done | by exists x].
Qed.

Lemma tc_update now timers i cfg sys :
  timers ≠ TimeoutThrows →
  timers_consistent sys → timers_consistent (updateInstanceConfig now timers i cfg sys).1.
Proof.
  intros Htimers Hsys. unfold updateInstanceConfig.
  destruct (instances sys !! i) as [x|] eqn:Hi; [|done]. cbn [fst].
  assert (Halter : ∀ sys0, timers_consistent sys0 → is_Some (instances sys0 !! i) →
    timers_consistent
      (set_instances (alter (λ i0, set_lastUpdate now (set_config cfg i0)) i) sys0)).
  { intros sys0 H0 [y Hy].
    eapply (tc_rewrite_one sys0 _ i y (set_lastUpdate now (set_config cfg y))); try done.
    - cbn. by rewrite lookup_alter_eq, Hy.
    - intros j Hne. cbn. by rewrite lookup_alter_ne. }
  destruct (bool_decide (status x = running)).
  - apply tc_start; [done|]. apply Halter; [by apply tc_stop|].
    unfold stopInstance. rewrite Hi. cbn. rewrite lookup_insert_eq. by eexists.
  - apply Halter; [done | by exists x].
Qed.

Section WithLocale.

Variable toLocaleDateString : Z → string.
Variable toLocaleTimeString : Z → string.

Local Abbreviation executeAgentCycle :=
  (executeAgentCycle toLocaleDateString toLocaleTimeString).
Local Abbreviation step := (step toLocaleDateString toLocaleTimeString).
Local Abbreviation run := (run toLocaleDateString toLocaleTimeString).

(** *** A cycle that fails *)

Lemma cycleFailed_stopInstance now i instance sys :
  instances sys !! i = Some instance →
  cycleFailed now i instance sys = (stopInstance now i sys).1.
Proof.
  intros Hi. unfold cycleFailed, stopInstance. cbn [instances set_instances].
  rewrite lookup_insert_eq, Hi. cbn. by rewrite insert_insert_eq.
Qed.

(** X21.  A cycle of a running instance in which the collector or the
    processor throws a value other than [null] and [undefined] leaves the
    manager, the timers and the feed store exactly as [stopInstance] at that
    instant would: nothing records that the instance failed.  When what is
    thrown is [null] or [undefined], the handler itself throws and the cycle
    leaves everything as it was: the instance is still running and its timer
    still armed. *)
Theorem failed_cycle_is_stopInstance (w : CycleWorld) (i : string)
    (instance : AgentInstance) (sys : System) :
  instances sys !! i = Some instance →
  status instance = running →
  (throws w (config instance) →
   executeAgentCycle w i sys = (stopInstance (cycle_time w) i sys).1) ∧
  (throws_nullish w (config instance) →
   executeAgentCycle w i sys = sys ∧
   status_of i (executeAgentCycle w i sys) = Some running ∧
   intervals (executeAgentCycle w i sys) = intervals sys).
Proof.
  intros Hi Hrun. unfold InstanceManager.executeAgentCycle. rewrite Hi.
  destruct (decide _) as [Hne|_]; [done|]. split.
  - intros [[m ->] | (d & data & m & -> & ->)]; by apply cycleFailed_stopInstance.
  - assert (Hst : status_of i sys = Some running)
      by (unfold status_of; by rewrite Hi; cbn; rewrite Hrun).
    intros [-> | (d & data & -> & ->)]; done.
Qed.

(** *** What a cycle leaves alone *)

(** X22.  A cycle never adds or removes an instance, never changes another
    instance, never arms a timer and never changes the feed of a format
    other than the one the instance is configured for; when nothing is
    collected it changes nothing at all. *)
Theorem cycle_footprint (w : CycleWorld) (i : string) (sys : System) :
  (∀ j, is_Some (instances (executeAgentCycle w i sys) !! j)
        ↔ is_Some (instances sys !! j)) ∧
  (∀ j, j ≠ i → instances (executeAgentCycle w i sys) !! j = instances sys !! j) ∧
  intervals (executeAgentCycle w i sys) ⊆ intervals sys ∧
  nextHandle (executeAgentCycle w i sys) = nextHandle sys ∧
  timeouts (executeAgentCycle w i sys) = timeouts sys ∧
  (∀ instance c, instances sys !! i = Some instance →
     outputFormat (config instance) ≠ c →
     RSS.get c (rssManager (executeAgentCycle w i sys)) = RSS.get c (rssManager sys)) ∧
  (∀ instance, instances sys !! i = Some instance →
     collectAll w (config instance) = Collects [] →
     executeAgentCycle w i sys = sys).
Proof.
  assert (Hstop : ∀ instance, instances sys !! i = Some instance →
    (∀ j, is_Some (instances (stopInstance (cycle_time w) i sys).1 !! j)
          ↔ is_Some (instances sys !! j)) ∧
    intervals (stopInstance (cycle_time w) i sys).1 ⊆ intervals sys ∧
    nextHandle (stopInstance (cycle_time w) i sys).1 = nextHandle sys ∧
    timeouts (stopInstance (cycle_time w) i sys).1 = timeouts sys ∧
    rssManager (stopInstance (cycle_time w) i sys).1 = rssManager sys).
  { intros instance Hi. unfold stopInstance. rewrite Hi. cbn. split_and!; try done.
    - intros j. destruct (decide (i = j)) as [<-|Hne].
      + rewrite lookup_insert_eq, Hi. split; by eexists.
      + by rewrite lookup_insert_ne.
    - destruct (cronJob instance); [apply delete_subseteq | done]. }
  unfold InstanceManager.executeAgentCycle.
  destruct (instances sys !! i) as [instance|] eqn:Hi; [|by split_and!].
  destruct (decide (status instance ≠ running)) as [|Hrun]; [by split_and!|].
  destruct (Hstop instance eq_refl) as (Hs1 & Hs2 & Hs3 & Hs4 & Hs5).
  destruct (collectAll w (config instance)) as [[|d data]|m|] eqn:Hc.
  - by split_and!.
  - destruct (processContent w (config instance) (d :: data)) as [text|m|] eqn:Hp.
    + cbn. split_and!; try done.
      * intros j. destruct (decide (i = j)) as [<-|Hne].
        -- rewrite lookup_insert_eq, Hi. split; by eexists.
        -- by rewrite lookup_insert_ne.
      * intros j Hne. by rewrite lookup_insert_ne.
      * intros x c [= <-] Hne.
        pose (a := {| RSS.ap_format := outputFormat (config instance);
                      RSS.ap_content := text;
                      RSS.ap_config := config instance;
                      RSS.ap_attribution := sourceAttribution (d :: data);
                      RSS.ap_now := cycle_time w;
                      RSS.ap_now' := cycle_time w |}).
        apply (RSSExtra.get_append_other toLocaleDateString toLocaleTimeString
                 a (rssManager sys) c Hne).
      * intros x [= <-] Hc'. congruence.
    + rewrite cycleFailed_stopInstance by done. split_and!; try done.
      * intros j Hne. by apply stopInstance_other.
      * intros x c _ _. by rewrite Hs5.
      * intros x [= <-] Hc'. congruence.
    + by split_and!.
  - rewrite cycleFailed_stopInstance by done. split_and!; try done.
    + intros j Hne. by apply stopInstance_other.
    + intros x c _ _. by rewrite Hs5.
    + intros x [= <-] Hc'. congruence.
  - by split_and!.
Qed.

(** *** Timers along a run *)

Lemma tc_cycle w i sys :
  timers_consistent sys → timers_consistent (executeAgentCycle w i sys).
Proof.
  intros Hsys. unfold InstanceManager.executeAgentCycle.
  destruct (instances sys !! i) as [instance|] eqn:Hi; [|done].
  destruct (decide _); [done|].
  assert (Hfail : timers_consistent (cycleFailed (cycle_time w) i instance sys)).
  { rewrite cycleFailed_stopInstance by done. by apply tc_stop. }
  destruct (collectAll w (config instance)) as [[|d data]|m|]; [done | | done | done].
  destruct (processContent w (config instance) (d :: data)); [|done|done].
  eapply (tc_rewrite_one sys _ i instance (set_lastUpdate (cycle_time w) instance));
    try done.
  - cbn. apply lookup_insert_eq.
  - intros j Hne. cbn. by rewrite lookup_insert_ne.
Qed.

Lemma tc_cleanup maxAgeHours now sys :
  timers_consistent sys →
  timers_consistent (cleanupOldInstances maxAgeHours now sys).1.
Proof.
  unfold cleanupOldInstances. generalize 0 as n.
  generalize (map_to_list (instances sys)) as l. intros l. revert sys.
  induction l as [|[k v] l IH]; intros sys n Hsys; [done|].
  cbn [foldl]. destruct (decide _); apply IH; [by apply tc_delete | done].
Qed.

(** An instance is created under an identifier that is not in use. *)
Definition fresh (op : Op) (sys : System) : Prop :=
  match op with
  | CreateInstance now rnd _ => instances sys !! generateInstanceId now rnd = None
  | _ => True
  end.

Fixpoint fresh_ids (ops : list Op) (sys : System) : Prop :=
  match ops with
  | [] => True
  | op :: rest => fresh op sys ∧ fresh_ids rest (step op sys)
  end.

(** The operation meets no [setTimeout] that throws. *)
Definition scheduled (op : Op) : Prop :=
  match op with
  | StartInstance _ timers _ | UpdateInstanceConfig _ timers _ _ => timers ≠ TimeoutThrows
  | _ => True
  end.

Lemma tc_step op sys :
  timers_consistent sys → fresh op sys → scheduled op → timers_consistent (step op sys).
Proof.
  intros Hsys Hfresh Hsched. destruct op; cbn [InstanceManager.step].
  - by apply tc_create.
  - by apply tc_start.
  - by apply tc_stop.
  - by apply tc_delete.
  - by apply tc_update.
  - destruct (intervals sys !! h); [by apply tc_cycle | done].
  - destruct (timeouts sys) as [|j rest]; [done|]. apply tc_cycle.
    destruct Hsys as [H1 H2 H3 H4]. by split.
  - by apply tc_cleanup.
Qed.

Lemma tc_run ops sys :
  timers_consistent sys → fresh_ids ops sys → Forall scheduled ops →
  timers_consistent (run ops sys).
Proof.
  revert sys. induction ops as [|op ops IH]; intros sys Hsys Hfresh Hsched; [done|].
  destruct Hfresh as [Hop Hrest]. apply Forall_cons in Hsched as [Hs Hsched].
  cbn. apply IH; [by apply tc_step | done | done].
Qed.

(** X23.  As long as no [setTimeout] throws, however instances are created,
    started, stopped, updated, deleted and cleaned up, and whatever their
    cycles do: an instance is running exactly when it holds a timer that is
    armed for it, every armed timer belongs to a running instance, and no
    instance has two.  (Identifiers of new instances are taken not to
    collide with those in use.) *)
Theorem timers_follow_status (ops : list Op) :
  fresh_ids ops init →
  Forall scheduled ops →
  (∀ i instance, instances (run ops init) !! i = Some instance →
     (status instance = running
      ↔ ∃ h, cronJob instance = Some h ∧ intervals (run ops init) !! h = Some i)) ∧
  (∀ h i, intervals (run ops init) !! h = Some i →
     ∃ instance, instances (run ops init) !! i = Some instance ∧
                 status instance = running ∧ cronJob instance = Some h) ∧
  (∀ h h' i, intervals (run ops init) !! h = Some i →
             intervals (run ops init) !! h' = Some i → h = h').
Proof.
  intros Hfresh Hsched.
  destruct (tc_run ops init tc_init Hfresh Hsched) as [H1 H2 H3 H4].
  split_and!.
  - intros i instance Hi. rewrite (H1 i instance Hi). split.
    + intros [h Hh]. exists h. split; [done | by eapply H2].
    + intros (h & Hh & _). by exists h.
  - intros h i Hh. destruct (H3 h i Hh) as (instance & Hi & Hc).
    exists instance. split_and!; [done | | done].
    apply (H1 i instance Hi). by exists h.
  - intros h h' i Hh Hh'.
    destruct (H3 h i Hh) as (x & Hx & Hxc), (H3 h' i Hh') as (y & Hy & Hyc).
    congruence.
Qed.

(** X24.  After [stopInstance] nothing runs for the instance any more: no
    armed timer is left for it, and a cycle that a timer already pending
    starts for it changes nothing. *)
Theorem stopInstance_silences (now : Z) (i : string) (sys : System) :
  timers_consistent sys →
  (∀ h, intervals (stopInstance now i sys).1 !! h ≠ Some i) ∧
  (∀ w, executeAgentCycle w i (stopInstance now i sys).1 = (stopInstance now i sys).1).
Proof.
  intros Hsys. split.
  - intros h Hh. pose proof (tc_stop now i sys Hsys) as [_ _ H3 _].
    destruct (H3 h i Hh) as (x & Hx & Hc).
    assert (Hsome : is_Some (instances sys !! i)).
    { revert Hx. unfold stopInstance.
      destruct (instances sys !! i) eqn:Hi; [by eexists|].
      cbn. intros Hx. congruence. }
    pose proof (stopInstance_cronJob now i sys x Hx Hsome). congruence.
  - intros w. apply executeAgentCycle_skips. unfold status_of, stopInstance.
    destruct (instances sys !! i) as [instance|] eqn:Hi; cbn.
    + by rewrite lookup_insert_eq.
    + by rewrite Hi.
Qed.

End WithLocale.

(** X25.  Starting an instance that is not running and then stopping it
    gives the timers back as they were: the instance is stopped and holds no
    handle, the handle that was used is not reused, and the first cycle that
    the start had scheduled stays pending. *)
Theorem start_then_stop (now now' : Z) (i : string) (instance : AgentInstance)
    (sys : System) :
  timers_consistent sys →
  instances sys !! i = Some instance →
  status instance ≠ running →
  intervals (stopInstance now' i (startInstance now Armed i sys).1).1 = intervals sys ∧
  status_of i (stopInstance now' i (startInstance now Armed i sys).1).1 = Some stopped ∧
  cronJob_of i (stopInstance now' i (startInstance now Armed i sys).1).1 = None ∧
  nextHandle (stopInstance now' i (startInstance now Armed i sys).1).1
  = S (nextHandle sys) ∧
  timeouts (stopInstance now' i (startInstance now Armed i sys).1).1
  = timeouts sys ++ [i].
Proof.
  intros [H1 H2 H3 H4] Hi Hnot.
  assert (Hfresh : intervals sys !! nextHandle sys = None).
  { destruct (intervals sys !! nextHandle sys) eqn:E; [|done].
    assert (nextHandle sys < nextHandle sys) by (apply H4; eauto). lia. }
  unfold startInstance. rewrite Hi, decide_False by done. cbn [fst].
  unfold stopInstance, status_of, cronJob_of. cbn [instances].
  rewrite lookup_insert_eq. cbn. rewrite lookup_insert_eq. cbn.
  split_and!; try done. by apply delete_insert_id.
Qed.

(** *** Cleanup *)

Definition expired (cutoffTime : option Z) (instance : AgentInstance) : Prop :=
  status instance = stopped ∧ earlierThan cutoffTime (lastUpdate instance).

Lemma deleteInstance_lookup now k j sys :
  instances (deleteInstance now k sys).1 !! j
  = if decide (k = j) then None else instances sys !! j.
Proof.
  destruct (decide (k = j)) as [<-|Hne]; [|by apply deleteInstance_other].
  unfold deleteInstance. destruct (instances sys !! k) eqn:Hk; [|done].
  cbn. apply lookup_delete_eq.
Qed.

Lemma deleteInstance_rssManager now k sys :
  rssManager (deleteInstance now k sys).1 = rssManager sys.
Proof.
  unfold deleteInstance, stopInstance. by destruct (instances sys !! k).
Qed.

Lemma cleanup_fold now (cutoffTime : option Z) (l : list (string * AgentInstance)) sys n :
  let out :=
    foldl (λ '(sys', removedCount) '(instanceId, instance),
             if decide (status instance = stopped ∧
                        earlierThan cutoffTime (lastUpdate instance))
             then ((deleteInstance now instanceId sys').1, S removedCount)
             else (sys', removedCount))
          (sys, n) l in
  (∀ j, instances out.1 !! j
        = if decide (Exists (λ kv, kv.1 = j ∧ expired cutoffTime kv.2) l)
          then None else instances sys !! j) ∧
  out.2 = n + length (filter (λ kv, expired cutoffTime kv.2) l) ∧
  rssManager out.1 = rssManager sys.
Proof.
  revert sys n. induction l as [|[k v] l IH]; intros sys n; cbn zeta.
  - split_and!; [|cbn; lia | done]. intros j. rewrite decide_False; [done|].
    by intros ?%Exists_nil.
  - cbn [foldl].
    destruct (decide (status v = stopped ∧ earlierThan cutoffTime (lastUpdate v)))
      as [Hexp|Hnot].
    + destruct (IH (deleteInstance now k sys).1 (S n)) as (Hl & Hc & Hr).
      split_and!.
      * intros j. rewrite Hl, deleteInstance_lookup.
        destruct (decide (k = j)) as [<-|Hne].
        -- rewrite (decide_True (P := Exists _ (_ :: _))) by (by left).
           by destruct (decide _).
        -- destruct (decide (Exists _ l)) as [Hex|Hnex].
           ++ by rewrite decide_True by (by right).
           ++ rewrite decide_False; [done|].
              intros [[? _]|?]%Exists_cons; done.
      * rewrite Hc, filter_cons_True by done. cbn. lia.
      * by rewrite Hr, deleteInstance_rssManager.
    + destruct (IH sys n) as (Hl & Hc & Hr). split_and!.
      * intros j. rewrite Hl. destruct (decide (Exists _ l)) as [Hex|Hnex].
        -- by rewrite decide_True by (by right).
        -- rewrite decide_False; [done|].
           intros [[_ ?]|?]%Exists_cons; done.
      * by rewrite Hc, filter_cons_False by done.
      * done.
Qed.

Lemma length_filter_both {A} (P : A → Prop) `{!∀ x, Decision (P x)} (l : list A) :
  length (filter (λ x, ¬ P x) l) + length (filter P l) = length l.
Proof.
  induction l as [|x l IH]; [done|]. rewrite !filter_cons.
  destruct (decide (P x)), (decide (¬ P x)); cbn; try tauto; lia.
Qed.

Lemma size_filter_list (P : string * AgentInstance → Prop) `{!∀ x, Decision (P x)}
    (m : gmap string AgentInstance) :
  size (filter P m) = length (filter P (map_to_list m)).
Proof.
  rewrite map_filter_alt, <- length_map_to_list.
  apply Permutation_length, map_to_list_to_map.
  eapply sublist_NoDup; [apply (NoDup_fst_map_to_list m)|].
  apply fmap_sublist, sublist_filter.
Qed.

(** X26.  When [now − maxAgeHours] hours is a time that a [Date] can hold,
    [cleanupOldInstances] removes the instances that are stopped and were
    last updated before that cutoff, and only those: every other instance,
    running, in error or stopped more recently, stays as it is; the number it
    returns is the number of instances it removed, and the feed store is not
    touched.  When it is not, the cutoff is an Invalid Date, no instance is
    before it, and the call removes nothing and returns 0. *)
Theorem cleanupOldInstances_exact (maxAgeHours now : Z) (sys : System) :
  ((-8640000000000000 ≤ now - maxAgeHours * 60 * 60 * 1000 ≤ 8640000000000000)%Z →
     (∀ i, instances (cleanupOldInstances maxAgeHours now sys).1 !! i
           = match instances sys !! i with
             | Some instance =>
                 if decide (status instance = stopped ∧
                            (lastUpdate instance < now - maxAgeHours * 60 * 60 * 1000)%Z)
                 then None else Some instance
             | None => None
             end) ∧
     (cleanupOldInstances maxAgeHours now sys).2
     = length (filter (λ kv : string * AgentInstance,
                         status kv.2 = stopped ∧
                         (lastUpdate kv.2 < now - maxAgeHours * 60 * 60 * 1000)%Z)
                      (map_to_list (instances sys)))) ∧
  (¬ (-8640000000000000 ≤ now - maxAgeHours * 60 * 60 * 1000 ≤ 8640000000000000)%Z →
     cleanupOldInstances maxAgeHours now sys = (sys, 0)) ∧
  size (instances (cleanupOldInstances maxAgeHours now sys).1)
  + (cleanupOldInstances maxAgeHours now sys).2
  = size (instances sys) ∧
  rssManager (cleanupOldInstances maxAgeHours now sys).1 = rssManager sys.
Proof.
  unfold cleanupOldInstances. cbn zeta.
  set (c := (now - maxAgeHours * 60 * 60 * 1000)%Z).
  set (cutoff := newDate c).
  pose proof (cleanup_fold now cutoff (map_to_list (instances sys)) sys 0) as Hfold.
  cbn zeta in Hfold.
  assert (Hnone : cutoff = None →
    foldl (λ '(sys', removedCount) '(instanceId, instance),
             if decide (status instance = stopped ∧
                        earlierThan cutoff (lastUpdate instance))
             then ((deleteInstance now instanceId sys').1, S removedCount)
             else (sys', removedCount))
          (sys, 0) (map_to_list (instances sys)) = (sys, 0)).
  { intros ->. generalize (map_to_list (instances sys)) as l.
    induction l as [|[k v] l IH]; [done|]. cbn [foldl].
    rewrite decide_False; [exact IH | by intros [_ []]]. }
  revert Hfold Hnone.
  generalize (foldl (λ '(sys', removedCount) '(instanceId, instance),
             if decide (status instance = stopped ∧
                        earlierThan cutoff (lastUpdate instance))
             then ((deleteInstance now instanceId sys').1, S removedCount)
             else (sys', removedCount))
          (sys, 0) (map_to_list (instances sys))) as out.
  intros out (Hl & Hc & Hr) Hnone.
  assert (Hlookup : ∀ i, instances out.1 !! i
        = match instances sys !! i with
          | Some instance => if decide (expired cutoff instance) then None else Some instance
          | None => None
          end).
  { intros i. rewrite Hl. destruct (instances sys !! i) as [instance|] eqn:Hi.
    - destruct (decide (expired cutoff instance)) as [Hexp|Hnot].
      + rewrite decide_True; [done|]. apply Exists_exists. exists (i, instance).
        split; [by apply elem_of_map_to_list | done].
      + rewrite decide_False; [done|].
        intros ([k v] & Hin%elem_of_map_to_list & Hk & Hv)%Exists_exists.
        cbn in *. subst k. congruence.
    - by destruct (decide _). }
  split_and!; [| | | exact Hr].
  - intros Hvalid.
    assert (Hcut : cutoff = Some c) by (by apply newDate_valid).
    split.
    + intros i. rewrite Hlookup. destruct (instances sys !! i) as [instance|]; [|done].
      unfold expired. rewrite Hcut. cbn [earlierThan].
      by destruct (decide (status instance = stopped ∧ (lastUpdate instance < c)%Z)).
    + rewrite Hc. cbn. unfold expired. by rewrite Hcut.
  - intros Hinvalid. apply Hnone. by apply newDate_invalid.
  - assert (Heq : instances out.1
                  = filter (λ kv, ¬ expired cutoff kv.2) (instances sys)).
    { apply map_eq. intros i. rewrite Hlookup, map_lookup_filter.
      destruct (instances sys !! i) as [instance|]; [|done]. cbn.
      destruct (decide (expired cutoff instance)).
      - by rewrite option_guard_False by (cbn; tauto).
      - by rewrite option_guard_True. }
    rewrite Heq, Hc, size_filter_list, <- (length_map_to_list (instances sys)).
    apply (length_filter_both (λ kv : string * AgentInstance, expired cutoff kv.2)).
Qed.


(** *** Changing the configuration *)

(** X27.  [updateInstanceConfig] answers [false] and changes nothing for an
    unknown instance.  For a known one it keeps the identifier, stores the
    new configuration and the instant, and leaves every other instance
    alone; an instance that was not running keeps its status and handle; one
    that was running is running again under a new timer handle when both
    timers are set up, is left in [error] without a handle when
    [setInterval] throws, and is left in [error] holding the new handle,
    with the interval armed, when [setTimeout] throws. *)
Theorem updateInstanceConfig_spec (now : Z) (timers : Timers) (i : string)
    (cfg : AgentConfig) (sys : System) :
  match instances sys !! i with
  | None => updateInstanceConfig now timers i cfg sys = (sys, false)
  | Some instance =>
      (updateInstanceConfig now timers i cfg sys).2 = true ∧
      (∀ j, j ≠ i → instances (updateInstanceConfig now timers i cfg sys).1 !! j
                    = instances sys !! j) ∧
      (∃ instance',
        instances (updateInstanceConfig now timers i cfg sys).1 !! i = Some instance' ∧
        inst_id instance' = inst_id instance ∧
        config instance' = cfg ∧
        lastUpdate instance' = now ∧
        status instance'
        = (if decide (status instance = running)
           then match timers with
                | Armed => running
                | IntervalThrows | TimeoutThrows => error
                end
           else status instance) ∧
        cronJob instance'
        = (if decide (status instance = running)
           then match timers with
                | Armed | TimeoutThrows => Some (nextHandle sys)
                | IntervalThrows => None
                end
           else cronJob instance)) ∧
      (status instance = running → timers ≠ IntervalThrows →
       intervals (updateInstanceConfig now timers i cfg sys).1 !! nextHandle sys
       = Some i)
  end.
Proof.
  destruct (instances sys !! i) as [instance|] eqn:Hi.
  - split; [unfold updateInstanceConfig; by rewrite Hi|].
    split; [intros j Hne; by apply updateInstanceConfig_other|].
    unfold updateInstanceConfig. rewrite Hi. cbn [fst].
    destruct (decide (status instance = running)) as [Hrun|Hnot].
    + rewrite bool_decide_eq_true_2 by done.
      set (x1 := set_lastUpdate now (set_status stopped (set_cronJob None instance))).
      set (sys2 := set_instances
                     (alter (λ i0, set_lastUpdate now (set_config cfg i0)) i)
                     (stopInstance now i sys).1).
      assert (H2 : instances sys2 !! i = Some (set_lastUpdate now (set_config cfg x1))).
      { unfold sys2, stopInstance. rewrite Hi. cbn [fst set_instances instances].
        by rewrite lookup_alter_eq, lookup_insert_eq. }
      assert (Hn : nextHandle sys2 = nextHandle sys).
      { unfold sys2, stopInstance. by rewrite Hi. }
      unfold startInstance. rewrite H2. cbn [status x1 set_lastUpdate set_config set_status].
      rewrite decide_False by done. rewrite Hn.
      destruct timers; cbn [fst instances intervals set_instances];
        rewrite ?lookup_insert_eq; (split; [eexists; split_and!; done|]);
        intros _ Hthrows; done.
    + rewrite bool_decide_eq_false_2 by done. cbn.
      rewrite lookup_alter_eq, Hi. cbn.
      split; [eexists; split_and!; done | done].
  - unfold updateInstanceConfig. by rewrite Hi.
Qed.

(** *** Creating an instance *)

(** X28.  [createInstance] registers, under the identifier it returns, a
    stopped instance with the given configuration and no timer; it leaves
    every other instance, the timers and the feed store as they were, and,
    when the identifier was not in use, the statistics count one more
    instance, a stopped one. *)
Theorem createInstance_spec (now : Z) (rnd : string) (cfg : AgentConfig)
    (sys : System) :
  (createInstance now rnd cfg sys).2 = "agent-" +:+ pretty now +:+ "-" +:+ rnd ∧
  getInstance (createInstance now rnd cfg sys).2 (createInstance now rnd cfg sys).1
  = Some {| inst_id := (createInstance now rnd cfg sys).2; config := cfg;
            status := stopped; lastUpdate := now; cronJob := None |} ∧
  (∀ j, j ≠ (createInstance now rnd cfg sys).2 →
        getInstance j (createInstance now rnd cfg sys).1 = getInstance j sys) ∧
  intervals (createInstance now rnd cfg sys).1 = intervals sys ∧
  rssManager (createInstance now rnd cfg sys).1 = rssManager sys ∧
  (getInstance (createInstance now rnd cfg sys).2 sys = None →
   total (getStats (createInstance now rnd cfg sys).1) = S (total (getStats sys)) ∧
   n_stopped (getStats (createInstance now rnd cfg sys).1)
   = S (n_stopped (getStats sys)) ∧
   n_running (getStats (createInstance now rnd cfg sys).1) = n_running (getStats sys)).
Proof.
  unfold getInstance. cbn [createInstance fst snd set_instances instances intervals
    rssManager].
  split_and!; [done | apply lookup_insert_eq | | done | done |].
  - intros j Hne. by rewrite lookup_insert_ne.
  - intros Hfresh. unfold getStats, getAllInstances.
    cbn [total n_stopped n_running instances set_instances createInstance fst].
    pose proof (map_to_list_insert (instances sys) (generateInstanceId now rnd)
                  {| inst_id := generateInstanceId now rnd; config := cfg;
                     status := stopped; lastUpdate := now; cronJob := None |}
                  Hfresh) as Hperm.
    rewrite !Hperm. cbn [fmap list_fmap snd].
    rewrite !filter_cons. cbn. split_and!; done.
Qed.

(** *** Worked examples *)

Example startedSystem_stats :
  getStats startedSystem
  = {| total := 1; n_running := 1; n_stopped := 0; n_error := 0;
       oldestInstance := Some 2000%Z; newestInstance := Some 2000%Z |}.
Proof. vm_compute. reflexivity. Qed.

(** Start, stop and start again within the delay of the first cycle: two
    first cycles are pending and one timer is armed. *)
Example restart_leaves_two_pending_cycles :
  let sys := run RSS.isoDate RSS.isoTime
               [StopInstance 2100 idA; StartInstance 2200 Armed idA] startedSystem in
  timeouts sys = [idA; idA] ∧ intervals sys = {[ 2 := idA ]}.
Proof. vm_compute. done. Qed.

Definition sampleOps : list Op :=
  [CreateInstance 1000 "k3j9x2m1q" sampleConfig; StartInstance 2000 Armed idA;
   TimeoutFires succeedingWorld; IntervalFires 1 failingWorld;
   StartInstance 260000 Armed idA; CleanupOldInstances 24 90000000].

Lemma sampleOps_fresh : fresh_ids RSS.isoDate RSS.isoTime sampleOps init.
Proof. cbn. split_and!; try done. Qed.

Lemma sampleOps_scheduled : Forall scheduled sampleOps.
Proof. repeat constructor; done. Qed.

(** A start whose [setTimeout] throws leaves the instance in [error] with
    the interval armed; the start after it arms a second interval for the
    instance, and the first one stays armed when the instance is stopped. *)
Example restart_after_timeout_failure :
  let sys1 := run RSS.isoDate RSS.isoTime
                [CreateInstance 1000 "k3j9x2m1q" sampleConfig;
                 StartInstance 2000 TimeoutThrows idA] init in
  let sys2 := run RSS.isoDate RSS.isoTime [StartInstance 3000 Armed idA] sys1 in
  let sys3 := run RSS.isoDate RSS.isoTime [StopInstance 4000 idA] sys2 in
  (status_of idA sys1 = Some error ∧ cronJob_of idA sys1 = Some 1 ∧
   intervals sys1 = {[ 1 := idA ]} ∧ timeouts sys1 = []) ∧
  (status_of idA sys2 = Some running ∧ cronJob_of idA sys2 = Some 2 ∧
   intervals sys2 = {[ 1 := idA; 2 := idA ]}) ∧
  (status_of idA sys3 = Some stopped ∧ cronJob_of idA sys3 = None ∧
   intervals sys3 = {[ 1 := idA ]}).
Proof. vm_compute. done. Qed.

(** A processor that rejects with [undefined]. *)
Definition nullishWorld : CycleWorld :=
  {| collectAll := λ _, Collects fourSources;
     processContent := λ _ _, ProcessThrowsNullish;
     cycle_time := 3000 |}.

Example nullish_throw_leaves_running :
  step RSS.isoDate RSS.isoTime (IntervalFires 1 nullishWorld) startedSystem
  = startedSystem.
Proof. vm_compute. reflexivity. Qed.

Lemma startedSystem_consistent : timers_consistent startedSystem.
Proof.
  apply (tc_run RSS.isoDate RSS.isoTime
           [CreateInstance 1000 "k3j9x2m1q" sampleConfig; StartInstance 2000 Armed idA]
           init tc_init).
  - cbn. split_and!; done.
  - repeat constructor; done.
Qed.

Lemma failed_cycle_is_stopInstance_witness :
  instances startedSystem !! idA = Some startedInstance ∧
  status startedInstance = running ∧
  throws failingWorld (config startedInstance) ∧
  throws_nullish nullishWorld (config startedInstance) ∧
  executeAgentCycle RSS.isoDate RSS.isoTime failingWorld idA startedSystem
  = (stopInstance (cycle_time failingWorld) idA startedSystem).1 ∧
  executeAgentCycle RSS.isoDate RSS.isoTime nullishWorld idA startedSystem
  = startedSystem.
Proof.
  assert (Hi : instances startedSystem !! idA = Some startedInstance)
    by (vm_compute; reflexivity).
  assert (Ht : throws failingWorld (config startedInstance)).
  { right. eexists _, _, _. split; reflexivity. }
  assert (Hn : throws_nullish nullishWorld (config startedInstance)).
  { right. eexists _, _. split; reflexivity. }
  split; [exact Hi|]. split; [reflexivity|]. split; [exact Ht|]. split; [exact Hn|].
  split.
  - exact (proj1 (failed_cycle_is_stopInstance RSS.isoDate RSS.isoTime failingWorld idA
                    startedInstance startedSystem Hi eq_refl) Ht).
  - exact (proj1 (proj2 (failed_cycle_is_stopInstance RSS.isoDate RSS.isoTime
                           nullishWorld idA startedInstance startedSystem Hi eq_refl)
                        Hn)).
Defined.

Lemma timers_follow_status_witness :
  fresh_ids RSS.isoDate RSS.isoTime sampleOps init ∧
  Forall scheduled sampleOps ∧
  (∀ i instance,
     instances (run RSS.isoDate RSS.isoTime sampleOps init) !! i = Some instance →
     (status instance = running
      ↔ ∃ h, cronJob instance = Some h ∧
             intervals (run RSS.isoDate RSS.isoTime sampleOps init) !! h = Some i)) ∧
  (∀ h i, intervals (run RSS.isoDate RSS.isoTime sampleOps init) !! h = Some i →
     ∃ instance,
       instances (run RSS.isoDate RSS.isoTime sampleOps init) !! i = Some instance ∧
       status instance = running ∧ cronJob instance = Some h) ∧
  (∀ h h' i, intervals (run RSS.isoDate RSS.isoTime sampleOps init) !! h = Some i →
             intervals (run RSS.isoDate RSS.isoTime sampleOps init) !! h' = Some i →
             h = h').
Proof.
  split; [exact sampleOps_fresh|]. split; [exact sampleOps_scheduled|].
  exact (timers_follow_status RSS.isoDate RSS.isoTime sampleOps sampleOps_fresh
           sampleOps_scheduled).
Defined.

Lemma stopInstance_silences_witness :
  timers_consistent startedSystem ∧
  (∀ h, intervals (stopInstance 3000 idA startedSystem).1 !! h ≠ Some idA) ∧
  (∀ w, executeAgentCycle RSS.isoDate RSS.isoTime w idA
          (stopInstance 3000 idA startedSystem).1
        = (stopInstance 3000 idA startedSystem).1).
Proof.
  split; [exact startedSystem_consistent|].
  exact (stopInstance_silences RSS.isoDate RSS.isoTime 3000 idA startedSystem
           startedSystem_consistent).
Defined.

Definition createdSystem : System :=
  (createInstance 1000 "k3j9x2m1q" sampleConfig init).1.

Definition createdInstance : AgentInstance :=
  {| inst_id := idA; config := sampleConfig; status := stopped;
     lastUpdate := 1000; cronJob := None |}.

(** A stopped instance last updated at 1000 ms: removed by a cleanup a day
    and an hour later, kept by one whose cutoff no [Date] holds. *)
Lemma cleanupOldInstances_exact_witness :
  (-8640000000000000 ≤ 90000000 - 24 * 60 * 60 * 1000 ≤ 8640000000000000)%Z ∧
  instances (cleanupOldInstances 24 90000000 createdSystem).1 !! idA = None ∧
  (cleanupOldInstances 24 90000000 createdSystem).2 = 1 ∧
  ¬ (-8640000000000000 ≤ 90000000 - (-3000000000) * 60 * 60 * 1000
     ≤ 8640000000000000)%Z ∧
  cleanupOldInstances (-3000000000) 90000000 createdSystem = (createdSystem, 0).
Proof.
  destruct (cleanupOldInstances_exact 24 90000000 createdSystem) as (Hvalid & _).
  destruct (cleanupOldInstances_exact (-3000000000) 90000000 createdSystem)
    as (_ & Hinvalid & _).
  assert (H1 : (-8640000000000000 ≤ 90000000 - 24 * 60 * 60 * 1000
                ≤ 8640000000000000)%Z) by lia.
  assert (H2 : ¬ (-8640000000000000 ≤ 90000000 - (-3000000000) * 60 * 60 * 1000
                  ≤ 8640000000000000)%Z) by lia.
  split; [exact H1|].
  destruct (Hvalid H1) as [Hlookup Hcount].
  split; [rewrite Hlookup; reflexivity|].
  split; [rewrite Hcount; reflexivity|].
  split; [exact H2 | exact (Hinvalid H2)].
Defined.

Lemma start_then_stop_witness :
  timers_consistent createdSystem ∧
  instances createdSystem !! idA = Some createdInstance ∧
  status createdInstance ≠ running ∧
  intervals (stopInstance 3000 idA (startInstance 2000 Armed idA createdSystem).1).1
  = intervals createdSystem ∧
  status_of idA (stopInstance 3000 idA (startInstance 2000 Armed idA createdSystem).1).1
  = Some stopped ∧
  cronJob_of idA (stopInstance 3000 idA (startInstance 2000 Armed idA createdSystem).1).1
  = None ∧
  nextHandle (stopInstance 3000 idA (startInstance 2000 Armed idA createdSystem).1).1
  = S (nextHandle createdSystem) ∧
  timeouts (stopInstance 3000 idA (startInstance 2000 Armed idA createdSystem).1).1
  = timeouts createdSystem ++ [idA].
Proof.
  assert (Hc : timers_consistent createdSystem).
  { apply tc_create; [exact tc_init | reflexivity]. }
  assert (Hi : instances createdSystem !! idA = Some createdInstance)
    by (vm_compute; reflexivity).
  assert (Hs : status createdInstance ≠ running) by discriminate.
  split; [exact Hc|]. split; [exact Hi|]. split; [exact Hs|].
  exact (start_then_stop 2000 3000 idA createdInstance createdSystem Hc Hi Hs).
Defined.

End InstanceManagerExtra.
